(** * CUDASymmetricMemory: a shallow embedding and its verified properties

    The development follows [CUDASymmetricMemory.cu]: the coordination-store
    helpers ([store_all_gather], [store_barrier]), the symmetric memory object
    ([get_buffer], [check_channel], the signal kernels and their host entry
    points) and the allocator ([alloc], [free], [get_alloc_size],
    [validate_rendezvous_requests], [rendezvous]).

    Conventions.
    - [int] and [size_t] values are integers of [Z]; every conversion and
      every wrap-around of the C++ code is written out.  Signed overflow and
      out-of-range indexing of a [std::vector] or of a device table have no
      defined behaviour: they are the outcome [UB] / [Undef].
    - The process state is a record [World]; the calls made to the external
      collaborators (coordination store, device driver, CUDA runtime, OS) are
      appended to its [trace], and what those collaborators answer is an
      explicit argument (an "environment" record) of each operation.
    - A failed [TORCH_CHECK] or driver check is an exception: the outcome
      [Throw e w] keeps the world [w] reached when it was raised. *)

From Stdlib Require Import ZArith Lia Ascii.
From stdpp Require Import base numbers list strings gmap pretty.

Local Open Scope Z_scope.

(** ** Machine integers *)

Definition size_t_modulus : Z := 2 ^ 64.
Definition int_min : Z := - 2 ^ 31.
Definition int_max : Z := 2 ^ 31 - 1.

(** Arithmetic on [size_t] is modulo [2^64]. *)
Definition wrap_size_t (x : Z) : Z := x mod size_t_modulus.

(** [static_cast<size_t>(x)] for a signed [x], and the implicit conversion of
    a signed operand meeting a [size_t] one. *)
Definition to_size_t (x : Z) : Z := wrap_size_t x.

Definition in_int (x : Z) : bool := (int_min <=? x) && (x <=? int_max).
Definition in_size_t (x : Z) : bool := (0 <=? x) && (x <? size_t_modulus).

(** Narrowing of an [int64_t] to [int]: the low 32 bits, read as signed. *)
Definition int64_to_int (x : Z) : Z := (x + 2 ^ 31) mod 2 ^ 32 - 2 ^ 31.

(** Arithmetic on [unsigned int] is modulo [2^32]. *)
Definition wrap_uint (x : Z) : Z := x mod 2 ^ 32.

(** ** Results *)

Inductive Error : Type :=
  | ChannelNegative (channel : Z)
  | ChannelTooLarge (max_channel channel : Z)
  | SizeExceeded (req_size buffer_size : Z)
  | NotAllocated (fn : string)
  | CheckFailed (cond : string)
  | OverlappingDevices
  | DriverError (code : Z)
  | CudaError (code : Z).

(** Outcome of a computation that reads no state. *)
Inductive result (A : Type) : Type :=
  | Ok (a : A)
  | Err (e : Error)
  | UB.
Arguments Ok {A} a.
Arguments Err {A} e.
Arguments UB {A}.

Definition result_bind {A B} (r : result A) (k : A -> result B) : result B :=
  match r with
  | Ok a => k a
  | Err e => Err e
  | UB => UB
  end.

(** [TORCH_CHECK(cond, ...)]. *)
Definition torch_check (cond : bool) (e : Error) : result unit :=
  if cond then Ok tt else Err e.

(** Signed [int] arithmetic: a result outside the type is undefined. *)
Definition int_mul (a b : Z) : result Z :=
  if in_int (a * b) then Ok (a * b) else UB.
Definition int_add (a b : Z) : result Z :=
  if in_int (a + b) then Ok (a + b) else UB.

(** [v[i]] on a [std::vector] or a device array: no bounds check. *)
Definition index {A} (v : list A) (i : Z) : result A :=
  if 0 <=? i then
    match v !! Z.to_nat i with
    | Some a => Ok a
    | None => UB
    end
  else UB.

(** ** Constants of the translation unit *)

Definition signal_pad_size : Z := 2048.
Definition store_comm_prefix : string := "CUDASymmetricMemory".
Definition sizeof_uint32_t : Z := 4.
Definition sizeof_void_ptr : Z := 8.

(** ** [check_channel] *)

Definition check_channel (channel world_size : Z) : result unit :=
  result_bind
    (torch_check (0 <=? channel) (ChannelNegative channel))
    (fun _ =>
       let num_channels :=
         wrap_size_t (signal_pad_size / sizeof_uint32_t * to_size_t world_size) in
       torch_check (to_size_t channel <? num_channels)
         (ChannelTooLarge (wrap_size_t (num_channels - 1)) channel)).

(** The number of channels the specification gives:
    [signal_pad_bytes / 4 / world_size]. *)
Definition spec_channel_count (world_size : Z) : Z :=
  signal_pad_size / 4 / world_size.

(** ** Data model *)

(** [struct Block] of the allocator.  [symm_mem] is the owning reference to
    the [CUDASymmetricMemory] built by [rendezvous], [None] for [nullptr];
    the reference is the identifier of the object in [symm_objs] below. *)
Record Block : Type := mkBlock {
  handle : Z;
  device_idx : Z;
  block_size : Z;
  buffer_size : Z;
  signal_pad_offset : Z;
  group_name : string;
  symm_mem : option nat
}.

Definition set_symm_mem (b : Block) (s : option nat) : Block :=
  mkBlock (handle b) (device_idx b) (block_size b) (buffer_size b)
    (signal_pad_offset b) (group_name b) s.

Record RendezvousRequest : Type := mkRequest {
  req_device_idx : Z;
  req_block_fd : Z;
  req_pid : Z;
  req_block_size : Z;
  req_buffer_size : Z;
  req_signal_pad_offset : Z
}.

(** A device-resident array: where it lives and what was uploaded into it. *)
Record DevTable : Type := mkDevTable {
  dev_addr : Z;
  dev_contents : list Z
}.

Record CUDASymmetricMemory : Type := mkSymm {
  handles_ : list Z;
  block_size_ : Z;
  buffers_ : list Z;
  signal_pads_ : list Z;
  buffer_size_ : Z;
  local_device_idx_ : Z;
  rank_ : Z;
  world_size_ : Z;
  buffers_dev_ : DevTable;
  signal_pads_dev_ : DevTable
}.

(** What [get_group_info] resolves a group name to (the store handle itself
    is the one external store of the model). *)
Record GroupInfo : Type := mkGroupInfo {
  gi_rank : Z;
  gi_world_size : Z
}.

(** The bytes handed to the store: the object representation of a trivially
    copyable value, kept as the value it represents. *)
Inductive Payload : Type :=
  | PayloadRequest (r : RendezvousRequest)
  | PayloadInt (v : Z).

(** The three kernels of the translation unit with their launch arguments;
    [signal_pads] is the device table passed as first argument. *)
Inductive Kernel : Type :=
  | BarrierKernel (signal_pads : DevTable) (channel rank world_size : Z)
  | PutSignalKernel (signal_pads : DevTable)
      (dst_rank channel rank world_size : Z)
  | WaitSignalKernel (signal_pads : DevTable)
      (src_rank channel rank world_size : Z).

(** Calls made to the external collaborators, in program order.  A trailing
    [res] is the status the callee returned ([0] is success). *)
Inductive Event : Type :=
  | StoreSet (key : string) (payload : Payload)
  | StoreWait (key : string)
  | StoreGet (key : string)
  | ImportRemoteFd (pid fd imported_fd : Z)
  | Close (fd : Z)
  | CuMemGetAllocationGranularity (device granularity res : Z)
  | CuMemCreate (size device hdl res : Z)
  | CuMemAddressReserve (size ptr res : Z)
  | CuMemMap (ptr size hdl res : Z)
  | CuMemSetAccess (ptr size device res : Z)
  | CuMemUnmap (ptr size res : Z)
  | CuMemRelease (hdl res : Z)
  | CuMemExportToShareableHandle (hdl fd res : Z)
  | CuMemImportFromShareableHandle (fd hdl res : Z)
  | CudaMemset (ptr value size res : Z)
  | CudaMemcpy (dst : Z) (src : list Z) (size res : Z)
  | CudaDeviceSynchronize (res : Z)
  | RawAlloc (size ptr : Z)
  | RawDelete (ptr : Z)
  | Launch (k : Kernel) (res : Z).

(** The process state: the allocator's [ptr_to_block_] map, the static
    [store_comm_seq_id], the live [CUDASymmetricMemory] objects with their
    reference counts ([c10::intrusive_ptr]), and the calls made so far. *)
Record World : Type := mkWorld {
  ptr_to_block_ : gmap Z Block;
  store_comm_seq_id : Z;
  symm_objs : gmap nat (CUDASymmetricMemory * nat);
  next_obj : nat;
  trace : list Event
}.

Definition initial_world : World := mkWorld ∅ 0 ∅ 0%nat [].

Definition set_ptr_to_block (f : gmap Z Block -> gmap Z Block) (w : World) : World :=
  mkWorld (f (ptr_to_block_ w)) (store_comm_seq_id w) (symm_objs w)
    (next_obj w) (trace w).
Definition set_seq_id (n : Z) (w : World) : World :=
  mkWorld (ptr_to_block_ w) n (symm_objs w) (next_obj w) (trace w).
Definition set_symm_objs
    (f : gmap nat (CUDASymmetricMemory * nat) -> gmap nat (CUDASymmetricMemory * nat))
    (w : World) : World :=
  mkWorld (ptr_to_block_ w) (store_comm_seq_id w) (f (symm_objs w))
    (next_obj w) (trace w).
Definition set_next_obj (n : nat) (w : World) : World :=
  mkWorld (ptr_to_block_ w) (store_comm_seq_id w) (symm_objs w) n (trace w).
Definition log (e : Event) (w : World) : World :=
  mkWorld (ptr_to_block_ w) (store_comm_seq_id w) (symm_objs w)
    (next_obj w) (trace w ++ [e]).

(** ** The state and exception monad *)

Inductive outcome (A : Type) : Type :=
  | Ret (a : A) (w : World)
  | Throw (e : Error) (w : World)
  | Undef.
Arguments Ret {A} a w.
Arguments Throw {A} e w.
Arguments Undef {A}.

Definition M (A : Type) : Type := World -> outcome A.

Definition ret {A} (a : A) : M A := fun w => Ret a w.
Definition bind {A B} (m : M A) (k : A -> M B) : M B :=
  fun w =>
    match m w with
    | Ret a w' => k a w'
    | Throw e w' => Throw e w'
    | Undef => Undef
    end.
Definition throw {A} (e : Error) : M A := fun w => Throw e w.
Definition undefined {A} : M A := fun _ => Undef.
Definition get_world : M World := fun w => Ret w w.
Definition modify (f : World -> World) : M unit := fun w => Ret tt (f w).
Definition emit (e : Event) : M unit := modify (log e).

Definition lift {A} (r : result A) : M A :=
  match r with
  | Ok a => ret a
  | Err e => throw e
  | UB => undefined
  end.

Notation "'do' x <- m ; k" := (bind m (fun x => k))
  (at level 10, x name, m at level 100, k at level 200).
Notation "'call' m ; k" := (bind m (fun _ => k))
  (at level 10, m at level 100, k at level 200).

(** [C10_CUDA_DRIVER_CHECK] and [AT_CUDA_CHECK] / [C10_CUDA_CHECK]. *)
Definition driver_check (res : Z) : M unit :=
  if res =? 0 then ret tt else throw (DriverError res).
Definition cuda_check (res : Z) : M unit :=
  if res =? 0 then ret tt else throw (CudaError res).

(** A [for] loop over a list of indices whose body may throw. *)
Fixpoint for_each {A S} (body : S -> A -> M S) (xs : list A) (acc : S) : M S :=
  match xs with
  | [] => ret acc
  | x :: xs' => do acc' <- body acc x; for_each body xs' acc'
  end.

(** ** The symmetric memory object *)

Definition get_buffer_ptrs (sm : CUDASymmetricMemory) : list Z := buffers_ sm.
Definition get_signal_pad_ptrs (sm : CUDASymmetricMemory) : list Z := signal_pads_ sm.
Definition get_buffer_ptrs_dev (sm : CUDASymmetricMemory) : DevTable := buffers_dev_ sm.
Definition get_signal_pad_ptrs_dev (sm : CUDASymmetricMemory) : DevTable :=
  signal_pads_dev_ sm.
Definition get_buffer_size (sm : CUDASymmetricMemory) : Z := buffer_size_ sm.
Definition get_signal_pad_size (sm : CUDASymmetricMemory) : Z := signal_pad_size.
Definition get_rank (sm : CUDASymmetricMemory) : Z := rank_ sm.
Definition get_world_size (sm : CUDASymmetricMemory) : Z := world_size_ sm.

(** [std::accumulate(sizes.begin(), sizes.end(), 1, std::multiplies<int>())]:
    the accumulator is an [int] (the type of the initial value [1]) and
    [std::multiplies<int>] takes both operands as [int], so every [int64_t]
    dimension is narrowed before it is multiplied. *)
Fixpoint accumulate_multiplies_int (sizes : list Z) (acc : Z) : result Z :=
  match sizes with
  | [] => Ok acc
  | x :: rest =>
      result_bind (int_mul acc (int64_to_int x))
        (fun acc' => accumulate_multiplies_int rest acc')
  end.

(** Addition of two [int64_t]. *)
Definition int64_add (a b : Z) : result Z :=
  if (- 2 ^ 63 <=? a + b) && (a + b <? 2 ^ 63) then Ok (a + b) else UB.

Section GetBuffer.
(** [c10::ScalarType] and [c10::elementSize] are declared outside this
    translation unit: the element size table is a parameter. *)
Variable ScalarType : Type.
Variable elementSize : ScalarType -> Z.

(** The view [at::for_blob(...).make_tensor()] builds: it owns nothing. *)
Record Tensor : Type := mkTensor {
  data_ptr : Z;
  tensor_sizes : list Z;
  tensor_storage_offset : Z;
  tensor_dtype : ScalarType;
  tensor_device : Z
}.

Definition get_buffer (sm : CUDASymmetricMemory)
    (rank : Z) (sizes : list Z) (dtype : ScalarType) (storage_offset : Z)
    : result Tensor :=
  result_bind (accumulate_multiplies_int sizes 1) (fun numel =>
  let element_size := elementSize dtype in
  result_bind (int64_add numel storage_offset) (fun n =>
  let req_size := wrap_size_t (to_size_t n * element_size) in
  result_bind
    (torch_check (req_size <=? buffer_size_ sm)
       (SizeExceeded req_size (buffer_size_ sm))) (fun _ =>
  let device := local_device_idx_ sm in
  result_bind (index (buffers_ sm) rank) (fun p =>
  Ok (mkTensor p sizes storage_offset dtype device))))).
End GetBuffer.

Arguments mkTensor {ScalarType}.
Arguments data_ptr {ScalarType}.
Arguments tensor_sizes {ScalarType}.
Arguments tensor_storage_offset {ScalarType}.

(** The number of elements of a shape, as the specification means it. *)
Definition numel (sizes : list Z) : Z := fold_right Z.mul 1 sizes.

(** ** Device code *)

(** What a thread does to the signal pads.  [release_signal] spins until the
    slot reads 0 and swaps it to 1, [acquire_signal] spins until it reads 1
    and swaps it to 0; only the slot they work on is recorded here. *)
Inductive DeviceOp : Type :=
  | ReleaseSignal (addr : Z)
  | AcquireSignal (addr : Z)
  | ThreadfenceSystem.

Definition release_signal (addr : Z) : list DeviceOp := [ReleaseSignal addr].
Definition acquire_signal (addr : Z) : list DeviceOp := [AcquireSignal addr].

(** [p + i] for [uint32_t* p]: the byte address moves by [4 * i]. *)
Definition ptr_add (p i : Z) : Z := p + sizeof_uint32_t * i.

(** The threads of a launch [<<<1, C10_WARP_SIZE>>>]; the macro is 32 for
    CUDA devices. *)
Definition C10_WARP_SIZE : Z := 32.

Definition barrier_kernel (signal_pads : list Z)
    (channel rank world_size : Z) (threadIdx_x : Z) : result (list DeviceOp) :=
  if threadIdx_x <? wrap_uint world_size then
    let target_rank := threadIdx_x in
    result_bind (index signal_pads target_rank) (fun pad_target =>
    result_bind (int_mul world_size channel) (fun wc =>
    result_bind (index signal_pads rank) (fun pad_own =>
    Ok (release_signal (ptr_add (ptr_add pad_target wc) rank)
        ++ acquire_signal (ptr_add (ptr_add pad_own wc) target_rank)))))
  else Ok [].

Definition put_signal_kernel (signal_pads : list Z)
    (dst_rank channel rank world_size : Z) (threadIdx_x : Z)
    : result (list DeviceOp) :=
  if threadIdx_x =? 0 then
    result_bind (index signal_pads dst_rank) (fun pad =>
    result_bind (int_mul world_size channel) (fun wc =>
    Ok (release_signal (ptr_add (ptr_add pad wc) rank))))
  else Ok [].

Definition wait_signal_kernel (signal_pads : list Z)
    (src_rank channel rank world_size : Z) (threadIdx_x : Z)
    : result (list DeviceOp) :=
  result_bind
    (if threadIdx_x =? 0 then
       result_bind (index signal_pads rank) (fun pad =>
       result_bind (int_mul world_size channel) (fun wc =>
       Ok (acquire_signal (ptr_add (ptr_add pad wc) src_rank))))
     else Ok [])
    (fun ops => Ok (ops ++ [ThreadfenceSystem])).

(** All threads of the block, in thread order. *)
Fixpoint run_threads (body : Z -> result (list DeviceOp)) (tids : list Z)
    : result (list DeviceOp) :=
  match tids with
  | [] => Ok []
  | t :: rest =>
      result_bind (body t) (fun ops =>
      result_bind (run_threads body rest) (fun ops' => Ok (ops ++ ops')))
  end.

Definition run_kernel (k : Kernel) : result (list DeviceOp) :=
  let tids := seqZ 0 C10_WARP_SIZE in
  match k with
  | BarrierKernel tbl channel rank world_size =>
      run_threads (barrier_kernel (dev_contents tbl) channel rank world_size) tids
  | PutSignalKernel tbl dst_rank channel rank world_size =>
      run_threads
        (put_signal_kernel (dev_contents tbl) dst_rank channel rank world_size) tids
  | WaitSignalKernel tbl src_rank channel rank world_size =>
      run_threads
        (wait_signal_kernel (dev_contents tbl) src_rank channel rank world_size) tids
  end.

(** ** Host entry points of the synchronization primitives

    [launch_res] is what [C10_CUDA_KERNEL_LAUNCH_CHECK] reads after the
    launch was queued. *)

Definition barrier (launch_res : Z) (sm : CUDASymmetricMemory) (channel : Z)
    : M unit :=
  call lift (check_channel channel (world_size_ sm));
  call emit (Launch
    (BarrierKernel (signal_pads_dev_ sm) channel (rank_ sm) (world_size_ sm))
    launch_res);
  cuda_check launch_res.

Definition put_signal (launch_res : Z) (sm : CUDASymmetricMemory)
    (dst_rank channel : Z) : M unit :=
  call lift (check_channel channel (world_size_ sm));
  call emit (Launch
    (PutSignalKernel (signal_pads_dev_ sm) dst_rank channel (rank_ sm)
       (world_size_ sm))
    launch_res);
  cuda_check launch_res.

Definition wait_signal (launch_res : Z) (sm : CUDASymmetricMemory)
    (src_rank channel : Z) : M unit :=
  call lift (check_channel channel (world_size_ sm));
  call emit (Launch
    (WaitSignalKernel (signal_pads_dev_ sm) src_rank channel (rank_ sm)
       (world_size_ sm))
    launch_res);
  cuda_check launch_res.

(** Byte offset of slot [(peer, channel)] from the base of a pad, as the
    signal-pad layout of the specification gives it. *)
Definition slot_byte_offset (world_size peer channel : Z) : Z :=
  channel * world_size * 4 + peer * 4.

(** ** Coordination-store helpers *)

(** [oss << store_comm_prefix << "/" << store_comm_seq_id << "/" << r]. *)
Definition store_key (seq_id r : Z) : string :=
  store_comm_prefix +:+ "/" +:+ pretty seq_id +:+ "/" +:+ pretty r.

(** What [store->get] hands back for a peer: the size of the payload and the
    value its bytes are copied into when the size is [sizeof(T)]. *)
Record StoreReply (T : Type) : Type := mkReply {
  reply_size : Z;
  reply_val : T
}.
Arguments mkReply {T}.
Arguments reply_size {T}.
Arguments reply_val {T}.

Section StoreAllGather.
Context {T : Type}.
Variable sizeof_T : Z.
Variable to_payload : T -> Payload.

Definition store_all_gather (replies : Z -> StoreReply T)
    (rank world_size : Z) (val : T) : M (list T) :=
  do w <- get_world;
  let peer_keys := store_key (store_comm_seq_id w) <$> seqZ 0 world_size in
  call modify (set_seq_id (wrap_size_t (store_comm_seq_id w + 1)));
  do own_key <- lift (index peer_keys rank);
  call emit (StoreSet own_key (to_payload val));
  for_each
    (fun peer_vals r =>
       if r =? rank then ret (peer_vals ++ [val])
       else
         do key <- lift (index peer_keys r);
         call emit (StoreWait key);
         call emit (StoreGet key);
         let payload := replies r in
         call lift (torch_check (reply_size payload =? sizeof_T)
                      (CheckFailed "payload.size() == sizeof(T)"));
         ret (peer_vals ++ [reply_val payload]))
    (seqZ 0 world_size) [].
End StoreAllGather.

Definition sizeof_int : Z := 4.
(** Three [int]s, padding to 8, three [size_t]s. *)
Definition sizeof_RendezvousRequest : Z := 40.

Definition store_barrier (replies : Z -> StoreReply Z) (rank world_size : Z)
    : M unit :=
  call store_all_gather sizeof_int PayloadInt replies rank world_size 0;
  ret tt.

(** ** Driver helpers *)

(** [import_remote_fd]: [pidfd_open] then [pidfd_getfd]; the descriptor the
    kernel returns is an input, and it is not checked. *)
Definition import_remote_fd (imported : Z) (pid fd : Z) : M Z :=
  call emit (ImportRemoteFd pid fd imported);
  ret imported.

(** What the driver answers to the three calls of [map_block]. *)
Record MapEnv : Type := mkMapEnv {
  reserve_ptr : Z;
  reserve_res : Z;
  map_res : Z;
  set_access_res : Z
}.

Definition map_block (env : MapEnv) (hdl size device : Z) : M Z :=
  call emit (CuMemAddressReserve size (reserve_ptr env) (reserve_res env));
  call driver_check (reserve_res env);
  call emit (CuMemMap (reserve_ptr env) size hdl (map_res env));
  call driver_check (map_res env);
  call emit (CuMemSetAccess (reserve_ptr env) size device (set_access_res env));
  call driver_check (set_access_res env);
  ret (reserve_ptr env).

(** Modelled from the spec: [at::ceil_div] and [at::round_up] of
    [ATen/ceil_div.h] are not among the sources.  [round_up a b] rounds [a]
    up to a multiple of [b]; both are instantiated at [size_t], whose
    arithmetic wraps. *)
Definition ceil_div (a b : Z) : Z := wrap_size_t (a + b - 1) / b.
Definition round_up (a b : Z) : Z := wrap_size_t (ceil_div a b * b).

(** ** The allocator *)

(** [ptr_to_block_.emplace(ptr, block)]: an existing entry is kept. *)
Definition emplace (ptr : Z) (b : Block) (m : gmap Z Block) : gmap Z Block :=
  match m !! ptr with
  | Some _ => m
  | None => <[ptr := b]> m
  end.

Definition find_block (w : World) (ptr : Z) : option Block :=
  ptr_to_block_ w !! ptr.

Record AllocEnv : Type := mkAllocEnv {
  granularity : Z;
  granularity_res : Z;
  create_handle : Z;
  create_res : Z;
  alloc_map : MapEnv;
  memset_res : Z
}.

Definition alloc (env : AllocEnv) (size device : Z) (group : string) : M Z :=
  let signal_pad_offset := round_up size 16 in
  let block_size := wrap_size_t (signal_pad_offset + signal_pad_size) in
  call emit (CuMemGetAllocationGranularity device (granularity env)
               (granularity_res env));
  call driver_check (granularity_res env);
  if granularity env =? 0 then undefined
  else
    let block_size := round_up block_size (granularity env) in
    call emit (CuMemCreate block_size device (create_handle env) (create_res env));
    call driver_check (create_res env);
    do ptr <- map_block (alloc_map env) (create_handle env) block_size device;
    call emit (CudaMemset ptr 0 block_size (memset_res env));
    call cuda_check (memset_res env);
    let block :=
      mkBlock (create_handle env) device block_size size signal_pad_offset
        group None in
    call modify (set_ptr_to_block (emplace ptr block));
    ret ptr.

Definition get_alloc_size (ptr : Z) : M Z :=
  do w <- get_world;
  match find_block w ptr with
  | None => throw (NotAllocated "get_alloc_size")
  | Some block => ret (buffer_size block)
  end.

Definition is_rendezvous_completed (ptr : Z) : M bool :=
  do w <- get_world;
  match find_block w ptr with
  | None => throw (NotAllocated "is_rendezvous_completed")
  | Some block => ret (bool_decide (symm_mem block <> None))
  end.

(** *** Lifetime of a [CUDASymmetricMemory] *)

Record CtorEnv : Type := mkCtorEnv {
  buffers_dev_ptr : Z;
  signal_pads_dev_ptr : Z;
  memcpy_buffers_res : Z;
  memcpy_signal_pads_res : Z
}.

(** The constructor: two device arrays of [world_size] pointers are
    allocated and the host vectors are uploaded into them. *)
Definition CUDASymmetricMemory_ctor (env : CtorEnv)
    (handles : list Z) (block_size : Z) (buffers signal_pads : list Z)
    (buffer_size local_device_idx rank world_size : Z) : M CUDASymmetricMemory :=
  let arr_size := wrap_size_t (sizeof_void_ptr * to_size_t world_size) in
  call emit (RawAlloc arr_size (buffers_dev_ptr env));
  call emit (RawAlloc arr_size (signal_pads_dev_ptr env));
  if (world_size <=? Z.of_nat (length buffers))
     && (world_size <=? Z.of_nat (length signal_pads)) then
    let n := Z.to_nat world_size in
    call emit (CudaMemcpy (buffers_dev_ptr env) (take n buffers) arr_size
                 (memcpy_buffers_res env));
    call cuda_check (memcpy_buffers_res env);
    call emit (CudaMemcpy (signal_pads_dev_ptr env) (take n signal_pads) arr_size
                 (memcpy_signal_pads_res env));
    call cuda_check (memcpy_signal_pads_res env);
    ret (mkSymm handles block_size buffers signal_pads buffer_size
           local_device_idx rank world_size
           (mkDevTable (buffers_dev_ptr env) (take n buffers))
           (mkDevTable (signal_pads_dev_ptr env) (take n signal_pads)))
  else undefined.

Record DtorEnv : Type := mkDtorEnv {
  dtor_finalizing : bool;
  sync_res : Z;
  dtor_unmap_res : Z -> Z;
  dtor_release_res : Z -> Z
}.

(** The destructor: unless the process is finalizing, every rank's mapping is
    unmapped and every handle released.  A failed check in a destructor ends
    the process; it is the outcome [Throw] here as everywhere. *)
Definition CUDASymmetricMemory_dtor (env : DtorEnv) (sm : CUDASymmetricMemory)
    : M unit :=
  if dtor_finalizing env then ret tt
  else
    call emit (CudaDeviceSynchronize (sync_res env));
    call cuda_check (sync_res env);
    call for_each
      (fun _ r =>
         do buf <- lift (index (buffers_ sm) r);
         call emit (CuMemUnmap buf (block_size_ sm) (dtor_unmap_res env r));
         call driver_check (dtor_unmap_res env r);
         do hdl <- lift (index (handles_ sm) r);
         call emit (CuMemRelease hdl (dtor_release_res env r));
         driver_check (dtor_release_res env r))
      (seqZ 0 (world_size_ sm)) tt;
    call emit (RawDelete (dev_addr (buffers_dev_ sm)));
    emit (RawDelete (dev_addr (signal_pads_dev_ sm))).

(** Copying a [c10::intrusive_ptr] adds a reference. *)
Definition retain_ref (s : nat) : M unit :=
  modify (set_symm_objs (alter (fun o => (o.1, S o.2)) s)).

(** Dropping a [c10::intrusive_ptr]: the last one runs the destructor.
    Dropping a reference to an object that is gone is not a behaviour of the
    program. *)
Definition release_ref (env : DtorEnv) (s : nat) : M unit :=
  do w <- get_world;
  match symm_objs w !! s with
  | None => undefined
  | Some (sm, n) =>
      if (n <=? 1)%nat then
        call modify (set_symm_objs (delete s));
        CUDASymmetricMemory_dtor env sm
      else modify (set_symm_objs (<[s := (sm, pred n)]>))
  end.

(** *** [free] *)

Record FreeEnv : Type := mkFreeEnv {
  is_finalizing : bool;
  free_unmap_res : Z;
  free_release_res : Z;
  free_dtor : DtorEnv
}.

Definition free (env : FreeEnv) (ptr : Z) : M unit :=
  do w <- get_world;
  match find_block w ptr with
  | None => ret tt
  | Some block =>
      if is_finalizing env then ret tt
      else
        call (match symm_mem block with
              | None =>
                  call emit (CuMemUnmap ptr (block_size block) (free_unmap_res env));
                  call driver_check (free_unmap_res env);
                  call emit (CuMemRelease (handle block) (free_release_res env));
                  driver_check (free_release_res env)
              | Some _ => ret tt
              end);
        call modify (set_ptr_to_block (delete ptr));
        (* the registry held the last reference to the Block: the Block is
           destroyed on return and gives up its [symm_mem] reference *)
        match symm_mem block with
        | Some s => release_ref (free_dtor env) s
        | None => ret tt
        end
  end.

(** *** [validate_rendezvous_requests] *)

(** The three comparisons of the loop body, for the ranks of [rs] in turn. *)
Fixpoint check_same_sizes (reqs : list RendezvousRequest) (rs : list Z)
    : result unit :=
  match rs with
  | [] => Ok tt
  | r :: rest =>
      result_bind (index reqs r) (fun req_r =>
      result_bind (index reqs 0) (fun req_0 =>
      result_bind
        (torch_check (req_block_size req_r =? req_block_size req_0)
           (CheckFailed "reqs[r].block_size == reqs[0].block_size")) (fun _ =>
      result_bind
        (torch_check (req_buffer_size req_r =? req_buffer_size req_0)
           (CheckFailed "reqs[r].buffer_size == reqs[0].buffer_size")) (fun _ =>
      result_bind
        (torch_check (req_signal_pad_offset req_r =? req_signal_pad_offset req_0)
           (CheckFailed "reqs[r].signal_pad_offset == reqs[0].signal_pad_offset"))
        (fun _ => check_same_sizes reqs rest)))))
  end.

Definition validate_rendezvous_requests (reqs : list RendezvousRequest)
    (world_size : Z) : result unit :=
  result_bind
    (torch_check (Z.of_nat (length reqs) =? to_size_t world_size)
       (CheckFailed "reqs.size() == (size_t)world_size")) (fun _ =>
  let device_indices : gset Z := list_to_set (req_device_idx <$> reqs) in
  if Z.of_nat (size device_indices) <? to_size_t world_size then
    Err OverlappingDevices
  else check_same_sizes reqs (seqZ 1 (world_size - 1))).

(** *** [rendezvous] *)

Record PeerEnv : Type := mkPeerEnv {
  imported_fd : Z;
  import_handle : Z;
  import_res : Z;
  peer_map : MapEnv
}.

Record RendezvousEnv : Type := mkRendezvousEnv {
  get_group_info : string -> GroupInfo;
  export_fd : Z;
  export_res : Z;
  getpid : Z;
  gather_replies : Z -> StoreReply RendezvousRequest;
  peers : Z -> PeerEnv;
  barrier_replies : Z -> StoreReply Z;
  ctor_env : CtorEnv
}.

(** The three vectors the import loop fills. *)
Record Mappings : Type := mkMappings {
  m_handles : list Z;
  m_buffers : list Z;
  m_signal_pads : list Z
}.

(** [(void* )((uintptr_t)p + offset)]. *)
Definition ptr_offset (p offset : Z) : Z := wrap_size_t (p + offset).

Definition import_peer (env : RendezvousEnv) (block : Block) (ptr : Z)
    (rank : Z) (reqs : list RendezvousRequest) (m : Mappings) (r : Z)
    : M Mappings :=
  let i := Z.to_nat r in
  if r =? rank then
    ret (mkMappings (<[i := handle block]> (m_handles m))
           (<[i := ptr]> (m_buffers m))
           (<[i := ptr_offset ptr (signal_pad_offset block)]> (m_signal_pads m)))
  else
    do req <- lift (index reqs r);
    let penv := peers env r in
    do fd <- import_remote_fd (imported_fd penv) (req_pid req) (req_block_fd req);
    call emit (CuMemImportFromShareableHandle fd (import_handle penv)
                 (import_res penv));
    call driver_check (import_res penv);
    do buf <- map_block (peer_map penv) (import_handle penv) (block_size block)
                (device_idx block);
    call emit (Close fd);
    ret (mkMappings (<[i := import_handle penv]> (m_handles m))
           (<[i := buf]> (m_buffers m))
           (<[i := ptr_offset buf (signal_pad_offset block)]> (m_signal_pads m))).

Definition rendezvous (env : RendezvousEnv) (ptr : Z) : M nat :=
  do w <- get_world;
  match find_block w ptr with
  | None => throw (NotAllocated "rendezvous")
  | Some block =>
      match symm_mem block with
      | Some s => call retain_ref s; ret s
      | None =>
          let group_info := get_group_info env (group_name block) in
          let rank := gi_rank group_info in
          let world_size := gi_world_size group_info in
          call emit (CuMemExportToShareableHandle (handle block) (export_fd env)
                       (export_res env));
          call driver_check (export_res env);
          let local_req :=
            mkRequest (device_idx block) (export_fd env) (getpid env)
              (block_size block) (buffer_size block) (signal_pad_offset block) in
          do reqs <- store_all_gather sizeof_RendezvousRequest PayloadRequest
                       (gather_replies env) rank world_size local_req;
          call lift (validate_rendezvous_requests reqs world_size);
          let n := Z.to_nat world_size in
          do m <- for_each (import_peer env block ptr rank reqs)
                    (seqZ 0 world_size)
                    (mkMappings (replicate n 0) (replicate n 0) (replicate n 0));
          call store_barrier (barrier_replies env) rank world_size;
          call emit (Close (export_fd env));
          do sm <- CUDASymmetricMemory_ctor (ctor_env env)
                     (m_handles m) (block_size block) (m_buffers m)
                     (m_signal_pads m) (buffer_size block) (device_idx block)
                     rank world_size;
          do w' <- get_world;
          let s := next_obj w' in
          call modify (set_next_obj (S s));
          call modify (set_symm_objs (<[s := (sm, 2%nat)]>));
          call modify (set_ptr_to_block
                         (alter (fun b => set_symm_mem b (Some s)) ptr));
          ret s
      end
  end.

(** ** Sequences of operations

    The entry points a client of the allocator and of the symmetric memory
    object can call, each with what the outside world answers during the
    call.  [OpRelease] is a holder of a [CUDASymmetricMemory] reference
    giving it up; the synchronization entry points name their object by its
    reference. *)

Inductive Op : Type :=
  | OpAlloc (env : AllocEnv) (size device : Z) (group : string)
  | OpFree (env : FreeEnv) (ptr : Z)
  | OpRendezvous (env : RendezvousEnv) (ptr : Z)
  | OpRelease (env : DtorEnv) (s : nat)
  | OpBarrier (launch_res : Z) (s : nat) (channel : Z)
  | OpPutSignal (launch_res : Z) (s : nat) (dst_rank channel : Z)
  | OpWaitSignal (launch_res : Z) (s : nat) (src_rank channel : Z).

(** The world an outcome leaves behind; an exception is caught by the caller
    and the process goes on. *)
Definition world_of {A} (o : outcome A) : option World :=
  match o with
  | Ret _ w => Some w
  | Throw _ w => Some w
  | Undef => None
  end.

(** Calling a method of the object a reference points to. *)
Definition with_object (s : nat) (f : CUDASymmetricMemory -> M unit) : M unit :=
  do w <- get_world;
  match symm_objs w !! s with
  | Some (sm, _) => f sm
  | None => undefined
  end.

Definition exec_op (op : Op) (w : World) : option World :=
  match op with
  | OpAlloc env size device group => world_of (alloc env size device group w)
  | OpFree env ptr => world_of (free env ptr w)
  | OpRendezvous env ptr => world_of (rendezvous env ptr w)
  | OpRelease env s => world_of (release_ref env s w)
  | OpBarrier res s channel =>
      world_of (with_object s (fun sm => barrier res sm channel) w)
  | OpPutSignal res s dst_rank channel =>
      world_of (with_object s (fun sm => put_signal res sm dst_rank channel) w)
  | OpWaitSignal res s src_rank channel =>
      world_of (with_object s (fun sm => wait_signal res sm src_rank channel) w)
  end.

Fixpoint exec_all (ops : list Op) (w : World) : option World :=
  match ops with
  | [] => Some w
  | op :: rest =>
      match exec_op op w with
      | Some w' => exec_all rest w'
      | None => None
      end
  end.

Definition is_free_of (ptr : Z) (op : Op) : bool :=
  match op with
  | OpFree _ p => p =? ptr
  | _ => false
  end.

(** ** Observations on the trace *)

(** Whether the address [p] is mapped after the calls of [t]: the last
    successful [cuMemMap] or [cuMemUnmap] on it decides. *)
Definition mapped_step (p : Z) (acc : bool) (e : Event) : bool :=
  match e with
  | CuMemMap q _ _ res => if (q =? p) && (res =? 0) then true else acc
  | CuMemUnmap q _ res => if (q =? p) && (res =? 0) then false else acc
  | _ => acc
  end.
Definition mapped (t : list Event) (p : Z) : bool :=
  fold_left (mapped_step p) t false.

(** Calls that import or map a device handle. *)
Definition is_import_or_map (e : Event) : bool :=
  match e with
  | ImportRemoteFd _ _ _ => true
  | CuMemImportFromShareableHandle _ _ _ => true
  | CuMemAddressReserve _ _ _ => true
  | CuMemMap _ _ _ _ => true
  | CuMemSetAccess _ _ _ _ => true
  | _ => false
  end.

Definition is_store_event (e : Event) : bool :=
  match e with
  | StoreSet _ _ => true
  | StoreWait _ => true
  | StoreGet _ => true
  | _ => false
  end.

(** The store traffic of one all-gather round run by [rank] with the counter
    at [seq_id]: its own key is set, then every other rank's key is waited
    for and read, in rank order. *)
Definition round_events (seq_id rank world_size : Z) (payload : Payload)
    : list Event :=
  StoreSet (store_key seq_id rank) payload
  :: concat ((fun r =>
                if r =? rank then []
                else [StoreWait (store_key seq_id r);
                      StoreGet (store_key seq_id r)])
             <$> seqZ 0 world_size).

(** What the round gathers. *)
Definition round_values {T} (replies : Z -> StoreReply T) (rank world_size : Z)
    (val : T) : list T :=
  (fun r => if r =? rank then val else reply_val (replies r))
  <$> seqZ 0 world_size.

(** The counter after [k] further rounds. *)
Definition seq_after (k : nat) (seq_id : Z) : Z :=
  Nat.iter k (fun s => wrap_size_t (s + 1)) seq_id.

(** ** Invariants of the data model, as the specification states them *)

Definition block_invariant (b : Block) : Prop :=
  signal_pad_offset b = round_up (buffer_size b) 16
  /\ buffer_size b + signal_pad_size <= block_size b.

(** The requests agree on the three sizes. *)
Definition same_sizes (a b : RendezvousRequest) : Prop :=
  req_block_size a = req_block_size b
  /\ req_buffer_size a = req_buffer_size b
  /\ req_signal_pad_offset a = req_signal_pad_offset b.

(** The record [alloc] registers. *)
Definition new_block (env : AllocEnv) (size device : Z) (group : string) : Block :=
  mkBlock (create_handle env) device
    (round_up (wrap_size_t (round_up size 16 + signal_pad_size)) (granularity env))
    size (round_up size 16) group None.

(** How a registered block can change while it stays registered: only its
    [symm_mem] is ever written, once, by [rendezvous]. *)
Definition block_evolves (b b' : Block) : Prop :=
  b' = b \/ (symm_mem b = None /\ exists s, b' = set_symm_mem b (Some s)).

(** The registry before and after one operation. *)
Definition registry_step (op : Op) (m m' : gmap Z Block) : Prop :=
  match op with
  | OpAlloc env size device group =>
      m' = m \/ exists p, m' = emplace p (new_block env size device group) m
  | OpFree _ ptr => m' = m \/ m' = delete ptr m
  | OpRendezvous _ ptr =>
      m' = m
      \/ exists b s, m !! ptr = Some b /\ symm_mem b = None
           /\ m' = alter (fun b => set_symm_mem b (Some s)) ptr m
  | _ => m' = m
  end.

(** The world a sequence of operations leaves when run from the start of the
    process. *)
Definition world_after (ops : list Op) : World :=
  default initial_world (exec_all ops initial_world).

(** No [size_t] computation of [alloc] wraps for this request. *)
Definition alloc_fits (op : Op) : bool :=
  match op with
  | OpAlloc env size _ _ =>
      (0 <=? size) && (0 <? granularity env)
      && (size + 15 + signal_pad_size + granularity env <=? size_t_modulus)
  | _ => true
  end.

Definition not_free_of (ptr : Z) (op : Op) : bool := negb (is_free_of ptr op).

(** The trace of [w] is [t0] followed by calls that all satisfy [p]. *)
Definition extends_by (p : Event -> bool) (t0 : list Event) (w : World) : Prop :=
  exists evs, trace w = t0 ++ evs /\ forallb p evs = true.

(** The conditions [validate_rendezvous_requests] checks, as the
    specification lists them. *)
Definition requests_consistent (reqs : list RendezvousRequest) (world_size : Z)
    : Prop :=
  Z.of_nat (length reqs) = world_size
  /\ NoDup (req_device_idx <$> reqs)
  /\ forall r0 r, head reqs = Some r0 -> r ∈ reqs -> same_sizes r r0.

(** The world after the calls [evs] were made. *)
Definition log_all (evs : list Event) (w : World) : World :=
  mkWorld (ptr_to_block_ w) (store_comm_seq_id w) (symm_objs w)
    (next_obj w) (trace w ++ evs).

(** The store traffic for the peers [rs] of a round. *)
Definition peer_events (seq_id rank : Z) (rs : list Z) : list Event :=
  concat ((fun r =>
             if r =? rank then []
             else [StoreWait (store_key seq_id r); StoreGet (store_key seq_id r)])
          <$> rs).

(** A string without the separator of the store keys. *)
Fixpoint no_slash (s : string) : bool :=
  match s with
  | EmptyString => true
  | String c s' => negb (Ascii.eqb c "/"%char) && no_slash s'
  end.

(** ** Specifications of computations *)

(** [hoare P m Q E]: from a world satisfying [P], a run of [m] that returns
    [a] ends in a world satisfying [Q a], and one that throws ends in a world
    satisfying [E]. *)
Definition hoare {A} (P : World -> Prop) (m : M A)
    (Q : A -> World -> Prop) (E : World -> Prop) : Prop :=
  forall w, P w ->
    match m w with
    | Ret a w' => Q a w'
    | Throw _ w' => E w'
    | Undef => True
    end.

(** [preserves I m]: [I] holds after [m] however it ends. *)
Definition preserves {A} (I : World -> Prop) (m : M A) : Prop :=
  hoare I m (fun _ => I) I.

(** Invariants that only read the registry. *)
Definition registry_only (I : World -> Prop) : Prop :=
  forall w w', ptr_to_block_ w = ptr_to_block_ w' -> I w -> I w'.

(** What lane [t] of the barrier kernel does for a rank whose own pad is at
    [pad_own]: it posts to slot [(rank, channel)] of the pad of [t] and
    waits on slot [(t, channel)] of its own pad. *)
Definition barrier_lane (pads : list Z) (pad_own channel rank world_size t : Z)
    : list DeviceOp :=
  [ReleaseSignal (pads !!! Z.to_nat t + slot_byte_offset world_size rank channel);
   AcquireSignal (pad_own + slot_byte_offset world_size t channel)].

(** The driver calls of the destructor for rank [r]. *)
Definition dtor_rank_events (sm : CUDASymmetricMemory) (r : Z) : list Event :=
  [CuMemUnmap (buffers_ sm !!! Z.to_nat r) (block_size_ sm) 0;
   CuMemRelease (handles_ sm !!! Z.to_nat r) 0].

(** All the calls of a destructor that meets no error. *)
Definition dtor_events (sm : CUDASymmetricMemory) : list Event :=
  CudaDeviceSynchronize 0
  :: concat (dtor_rank_events sm <$> seqZ 0 (world_size_ sm))
     ++ [RawDelete (dev_addr (buffers_dev_ sm));
         RawDelete (dev_addr (signal_pads_dev_ sm))].

Definition is_map_event (e : Event) : bool :=
  match e with
  | CuMemMap _ _ _ _ => true
  | _ => false
  end.

(** What the import loop of [rendezvous] has established for the ranks of
    [done]: the three vectors keep their length, the signal pad of a rank
    sits [signal_pad_offset] bytes into its buffer, and the slot of the
    local rank holds the local pointer and handle. *)
Definition mappings_ok (b : Block) (p rank : Z) (n : nat) (done : Z -> Prop)
    (m : Mappings) : Prop :=
  length (m_handles m) = n /\ length (m_buffers m) = n
  /\ length (m_signal_pads m) = n
  /\ forall r, done r -> 0 <= r < Z.of_nat n ->
       (exists buf,
          m_buffers m !! Z.to_nat r = Some buf
          /\ m_signal_pads m !! Z.to_nat r
             = Some (ptr_offset buf (signal_pad_offset b)))
       /\ (r = rank ->
           m_buffers m !! Z.to_nat r = Some p
           /\ m_handles m !! Z.to_nat r = Some (handle b)).

(** Invariants that do not read the trace. *)
Definition trace_blind (I : World -> Prop) : Prop :=
  forall e w, I w -> I (log e w).

(** ** Concrete scenarios used below *)

Definition ok_map (p : Z) : MapEnv := mkMapEnv p 0 0 0.
Definition ok_alloc (p hdl : Z) : AllocEnv :=
  mkAllocEnv 2097152 0 hdl 0 (ok_map p) 0.
Definition ok_dtor : DtorEnv := mkDtorEnv false 0 (fun _ => 0) (fun _ => 0).
Definition ok_free : FreeEnv := mkFreeEnv false 0 0 ok_dtor.

(** A group of one process: rank 0 of world size 1, nothing to import. *)
Definition solo_rendezvous : RendezvousEnv :=
  mkRendezvousEnv (fun _ => mkGroupInfo 0 1) 3 0 1000
    (fun _ => mkReply sizeof_RendezvousRequest (mkRequest 0 0 0 0 0 0))
    (fun _ => mkPeerEnv 0 0 0 (ok_map 0))
    (fun _ => mkReply sizeof_int 0)
    (mkCtorEnv 512 1024 0 0).

(** Rank 0 of a group of two whose peer reports [peer]. *)
Definition pair_rendezvous (peer : RendezvousRequest) : RendezvousEnv :=
  mkRendezvousEnv (fun _ => mkGroupInfo 0 2) 3 0 1000
    (fun _ => mkReply sizeof_RendezvousRequest peer)
    (fun _ => mkPeerEnv 4 8 0 (ok_map 8388608))
    (fun _ => mkReply sizeof_int 0)
    (mkCtorEnv 512 1024 0 0).

Definition example_symm : CUDASymmetricMemory :=
  mkSymm [7; 8] 2097152 [4096; 8388608] [8192; 8392704] 4096 0 0 2
    (mkDevTable 512 [4096; 8388608]) (mkDevTable 1024 [8192; 8392704]).

(** * Properties *)

(** ** Machine integers *)

Lemma wrap_size_t_small x : 0 <= x < size_t_modulus -> wrap_size_t x = x.
Proof. intros H. unfold wrap_size_t. apply Z.mod_small; assumption. Qed.

Lemma wrap_size_t_range x : 0 <= wrap_size_t x < size_t_modulus.
Proof. unfold wrap_size_t. apply Z.mod_pos_bound. reflexivity. Qed.

Lemma in_int_spec x : in_int x = true <-> int_min <= x <= int_max.
Proof. unfold in_int. rewrite andb_true_iff, !Z.leb_le. tauto. Qed.

Lemma int_mul_exact a b :
  int_min <= a * b <= int_max -> int_mul a b = Ok (a * b).
Proof. intros H. unfold int_mul. apply in_int_spec in H. rewrite H. reflexivity. Qed.

Lemma index_in_range {A} (v : list A) (i : Z) :
  0 <= i < Z.of_nat (length v) -> exists a, index v i = Ok a /\ v !! Z.to_nat i = Some a.
Proof.
  intros [H0 H1]. unfold index.
  destruct (0 <=? i) eqn:E; [|apply Z.leb_gt in E; lia].
  destruct (lookup_lt_is_Some_2 v (Z.to_nat i)) as [a Ha]; [lia|].
  exists a. rewrite Ha. split; reflexivity.
Qed.

Lemma index_out_of_range {A} (v : list A) (i : Z) :
  i < 0 \/ Z.of_nat (length v) <= i -> index v i = UB.
Proof.
  intros H. unfold index.
  destruct (0 <=? i) eqn:E; [|reflexivity].
  apply Z.leb_le in E.
  rewrite (lookup_ge_None_2 v (Z.to_nat i)) by lia. reflexivity.
Qed.

(** ** [check_channel] *)

(** The range the check admits: [signal_pad_size / 4 * world_size] channels. *)
Lemma check_channel_accepts c W :
  1 <= W <= int_max -> int_min <= c <= int_max ->
  check_channel c W = Ok tt <-> 0 <= c < 512 * W.
Proof.
  intros HW Hc. unfold check_channel, torch_check, to_size_t.
  unfold int_min, int_max in *.
  destruct (0 <=? c) eqn:E0; simpl.
  - apply Z.leb_le in E0.
    rewrite (wrap_size_t_small W), (wrap_size_t_small c)
      by (unfold size_t_modulus; lia).
    change (signal_pad_size / sizeof_uint32_t) with 512.
    rewrite (wrap_size_t_small (512 * W)) by (unfold size_t_modulus; lia).
    destruct (c <? 512 * W) eqn:E1.
    + apply Z.ltb_lt in E1. split; [lia | reflexivity].
    + apply Z.ltb_ge in E1. split; [discriminate | lia].
  - apply Z.leb_gt in E0. split; [discriminate | lia].
Qed.

Lemma check_channel_defined c W : check_channel c W <> UB.
Proof.
  unfold check_channel, torch_check.
  destruct (0 <=? c); simpl; [|discriminate].
  match goal with |- (if ?b then _ else _) <> _ => destruct b end; discriminate.
Qed.

(** C1. With two ranks the specification counts [2048 / 4 / 2 = 256]
    channels, so channel 256 is out of range; [check_channel] multiplies by
    the world size instead of dividing and lets it through, and so does it
    for channel 1023.  The slot the kernels then address for channel 256
    starts at byte 2048 of the 2048-byte pad, that is, past its end. *)
Theorem check_channel_accepts_channel_past_count :
  spec_channel_count 2 = 256
  /\ check_channel 256 2 = Ok tt
  /\ check_channel 1023 2 = Ok tt
  /\ check_channel 1024 2 = Err (ChannelTooLarge 1023 1024)
  /\ check_channel (-1) 2 = Err (ChannelNegative (-1))
  /\ run_kernel (PutSignalKernel (mkDevTable 1024 [8192; 8392704]) 0 256 0 2)
     = Ok [ReleaseSignal (8192 + signal_pad_size)].
Proof. repeat split; reflexivity. Qed.

(** ** The signal kernels *)

Lemma warp_threads :
  seqZ 0 C10_WARP_SIZE =
  [0;1;2;3;4;5;6;7;8;9;10;11;12;13;14;15;16;17;18;19;20;21;22;23;24;25;26;27;
   28;29;30;31].
Proof. reflexivity. Qed.

Lemma run_put_signal_kernel tbl dst c r W :
  run_kernel (PutSignalKernel tbl dst c r W) =
  result_bind (index (dev_contents tbl) dst) (fun pad =>
  result_bind (int_mul W c) (fun wc =>
  Ok [ReleaseSignal (ptr_add (ptr_add pad wc) r)])).
Proof.
  unfold run_kernel. rewrite warp_threads.
  cbn [run_threads]. unfold put_signal_kernel. cbn [Z.eqb Pos.eqb].
  destruct (index (dev_contents tbl) dst); cbn [result_bind]; try reflexivity.
  destruct (int_mul W c); reflexivity.
Qed.

Lemma run_wait_signal_kernel tbl src c r W :
  run_kernel (WaitSignalKernel tbl src c r W) =
  result_bind (index (dev_contents tbl) r) (fun pad =>
  result_bind (int_mul W c) (fun wc =>
  Ok (AcquireSignal (ptr_add (ptr_add pad wc) src)
        :: replicate 32 ThreadfenceSystem))).
Proof.
  unfold run_kernel. rewrite warp_threads.
  cbn [run_threads]. unfold wait_signal_kernel. cbn [Z.eqb Pos.eqb].
  destruct (index (dev_contents tbl) r); cbn [result_bind]; try reflexivity.
  destruct (int_mul W c); reflexivity.
Qed.

Lemma ptr_add_slot pad W c peer :
  ptr_add (ptr_add pad (W * c)) peer = pad + slot_byte_offset W peer c.
Proof. unfold ptr_add, slot_byte_offset, sizeof_uint32_t. lia. Qed.

(** The host side of the three entry points, once the channel is accepted
    and the launch reports no error: one kernel is queued. *)
Lemma put_signal_launches sm dst c w :
  check_channel c (world_size_ sm) = Ok tt ->
  put_signal 0 sm dst c w =
  Ret tt (log (Launch (PutSignalKernel (signal_pads_dev_ sm) dst c (rank_ sm)
                         (world_size_ sm)) 0) w).
Proof. intros H. unfold put_signal, bind. rewrite H. reflexivity. Qed.

Lemma wait_signal_launches sm src c w :
  check_channel c (world_size_ sm) = Ok tt ->
  wait_signal 0 sm src c w =
  Ret tt (log (Launch (WaitSignalKernel (signal_pads_dev_ sm) src c (rank_ sm)
                         (world_size_ sm)) 0) w).
Proof. intros H. unfold wait_signal, bind. rewrite H. reflexivity. Qed.

Lemma barrier_launches sm c w :
  check_channel c (world_size_ sm) = Ok tt ->
  barrier 0 sm c w =
  Ret tt (log (Launch (BarrierKernel (signal_pads_dev_ sm) c (rank_ sm)
                         (world_size_ sm)) 0) w).
Proof. intros H. unfold barrier, bind. rewrite H. reflexivity. Qed.

(** C8. Slot [(peer, c)] of a pad lies [c * W * 4 + peer * 4] bytes from the
    pad base.  Whenever the table entries read are there and [W * c] is an
    [int], [put_signal(dst_rank, c)] queues a kernel whose only signal
    operation is the release of slot [(local rank, c)] of [dst_rank]'s pad,
    and [wait_signal(src_rank, c)] one whose only signal operation is the
    acquire of slot [(src_rank, c)] of the local rank's pad, followed by the
    fences of the 32 threads. *)
Theorem signal_slot_addressing sm dst_rank src_rank c w pad_dst pad_own :
  check_channel c (world_size_ sm) = Ok tt ->
  int_min <= world_size_ sm * c <= int_max ->
  index (dev_contents (signal_pads_dev_ sm)) dst_rank = Ok pad_dst ->
  index (dev_contents (signal_pads_dev_ sm)) (rank_ sm) = Ok pad_own ->
  (exists k,
     put_signal 0 sm dst_rank c w = Ret tt (log (Launch k 0) w)
     /\ run_kernel k =
        Ok [ReleaseSignal
              (pad_dst + slot_byte_offset (world_size_ sm) (rank_ sm) c)])
  /\ (exists k,
        wait_signal 0 sm src_rank c w = Ret tt (log (Launch k 0) w)
        /\ run_kernel k =
           Ok (AcquireSignal
                 (pad_own + slot_byte_offset (world_size_ sm) src_rank c)
               :: replicate 32 ThreadfenceSystem)).
Proof.
  intros Hc Hm Hd Ho. split.
  - eexists. split; [apply put_signal_launches; exact Hc|].
    rewrite run_put_signal_kernel, Hd, (int_mul_exact _ _ Hm). cbn [result_bind].
    rewrite ptr_add_slot. reflexivity.
  - eexists. split; [apply wait_signal_launches; exact Hc|].
    rewrite run_wait_signal_kernel, Ho, (int_mul_exact _ _ Hm). cbn [result_bind].
    rewrite ptr_add_slot. reflexivity.
Qed.

Lemma signal_slot_addressing_witness :
  (exists k,
     put_signal 0 example_symm 1 3 initial_world
     = Ret tt (log (Launch k 0) initial_world)
     /\ run_kernel k = Ok [ReleaseSignal (8392704 + slot_byte_offset 2 0 3)])
  /\ (exists k,
        wait_signal 0 example_symm 1 3 initial_world
        = Ret tt (log (Launch k 0) initial_world)
        /\ run_kernel k =
           Ok (AcquireSignal (8192 + slot_byte_offset 2 1 3)
               :: replicate 32 ThreadfenceSystem)).
Proof.
  apply (signal_slot_addressing example_symm 1 1 3 initial_world 8392704 8192).
  - reflexivity.
  - vm_compute. split; discriminate.
  - reflexivity.
  - reflexivity.
Defined.

(** C10, as stated, at a concrete input: the claim has the kernel of
    [wait_signal] index the per-rank pointer table with [src_rank].  With two
    ranks the table has no entry 2, yet [wait_signal(2, 0)] of rank 0 is
    accepted and its kernel is defined: it reads the table at the local rank
    and acquires the word 8 bytes into the local pad. *)
Lemma wait_signal_kernel_indexes_table_by_local_rank :
  index (dev_contents (signal_pads_dev_ example_symm)) 2 = UB
  /\ wait_signal 0 example_symm 2 0 initial_world
     = Ret tt (log (Launch (WaitSignalKernel (signal_pads_dev_ example_symm)
                              2 0 0 2) 0) initial_world)
  /\ run_kernel (WaitSignalKernel (signal_pads_dev_ example_symm) 2 0 0 2)
     = Ok (AcquireSignal (8192 + 8) :: replicate 32 ThreadfenceSystem).
Proof. repeat split; reflexivity. Qed.

Lemma entry_point_rejects {A} (m : M A) c W e w :
  check_channel c W = Err e ->
  bind (lift (check_channel c W)) (fun _ => m) w = Throw e w.
Proof. intros H. unfold bind. rewrite H. reflexivity. Qed.

(** C10, amended.  The three host entry points check the channel and nothing
    else: when the channel is rejected they throw whatever the rank argument
    is, and when it is accepted they queue the kernel with the rank argument
    as given.  The kernel of [put_signal] indexes the per-rank pointer table
    with [dst_rank], so a [dst_rank] outside the table is an out-of-bounds
    read; the kernel of [wait_signal] indexes the table with the local rank
    and adds [src_rank] to the slot index inside the local pad. *)
Theorem entry_points_validate_only_channel sm dst_rank src_rank c w :
  let W := world_size_ sm in
  let tbl := signal_pads_dev_ sm in
  (forall res e, check_channel c W = Err e ->
     put_signal res sm dst_rank c w = Throw e w
     /\ wait_signal res sm src_rank c w = Throw e w
     /\ barrier res sm c w = Throw e w)
  /\ (check_channel c W = Ok tt ->
      put_signal 0 sm dst_rank c w
      = Ret tt (log (Launch (PutSignalKernel tbl dst_rank c (rank_ sm) W) 0) w)
      /\ wait_signal 0 sm src_rank c w
         = Ret tt (log (Launch (WaitSignalKernel tbl src_rank c (rank_ sm) W) 0) w)
      /\ barrier 0 sm c w
         = Ret tt (log (Launch (BarrierKernel tbl c (rank_ sm) W) 0) w))
  /\ run_kernel (PutSignalKernel tbl dst_rank c (rank_ sm) W)
     = result_bind (index (dev_contents tbl) dst_rank) (fun pad =>
       result_bind (int_mul W c) (fun wc =>
       Ok [ReleaseSignal (ptr_add (ptr_add pad wc) (rank_ sm))]))
  /\ (dst_rank < 0 \/ Z.of_nat (length (dev_contents tbl)) <= dst_rank ->
      run_kernel (PutSignalKernel tbl dst_rank c (rank_ sm) W) = UB)
  /\ run_kernel (WaitSignalKernel tbl src_rank c (rank_ sm) W)
     = result_bind (index (dev_contents tbl) (rank_ sm)) (fun pad =>
       result_bind (int_mul W c) (fun wc =>
       Ok (AcquireSignal (ptr_add (ptr_add pad wc) src_rank)
           :: replicate 32 ThreadfenceSystem))).
Proof.
  intros W tbl. repeat split.
  - unfold put_signal. apply entry_point_rejects. assumption.
  - unfold wait_signal. apply entry_point_rejects. assumption.
  - unfold barrier. apply entry_point_rejects. assumption.
  - apply put_signal_launches. assumption.
  - apply wait_signal_launches. assumption.
  - apply barrier_launches. assumption.
  - apply run_put_signal_kernel.
  - intros H. rewrite run_put_signal_kernel, (index_out_of_range _ _ H).
    reflexivity.
  - apply run_wait_signal_kernel.
Qed.

Lemma entry_points_validate_only_channel_witness :
  put_signal 0 example_symm 7 3 initial_world
  = Ret tt (log (Launch (PutSignalKernel (signal_pads_dev_ example_symm)
                           7 3 0 2) 0) initial_world)
  /\ put_signal 0 example_symm (-1) 2000 initial_world
     = Throw (ChannelTooLarge 1023 2000) initial_world
  /\ run_kernel (PutSignalKernel (signal_pads_dev_ example_symm) 7 3 0 2) = UB.
Proof.
  pose proof (entry_points_validate_only_channel example_symm 7 7 3
                initial_world) as (_ & Hok & _ & Hub & _).
  pose proof (entry_points_validate_only_channel example_symm (-1) 7 2000
                initial_world) as (Herr & _).
  split; [apply Hok; reflexivity|].
  split; [apply (Herr 0 (ChannelTooLarge 1023 2000)); reflexivity|].
  apply Hub. right. vm_compute. discriminate.
Defined.

(** ** [get_buffer] *)

Lemma numel_app a b : numel (a ++ b) = numel a * numel b.
Proof.
  unfold numel. induction a as [|x a IH]; simpl.
  - destruct (fold_right Z.mul 1 b); reflexivity.
  - rewrite IH. lia.
Qed.

Lemma int64_to_int_exact x : int_min <= x <= int_max -> int64_to_int x = x.
Proof.
  unfold int_min, int_max, int64_to_int. intros H.
  rewrite Z.mod_small by lia. lia.
Qed.

(** When every dimension and every partial product fits an [int], the
    accumulation computes the number of elements. *)
Lemma accumulate_multiplies_int_exact sizes : forall acc,
  Forall (fun d => int_min <= d <= int_max) sizes ->
  (forall k, (k <= length sizes)%nat ->
     int_min <= acc * numel (take k sizes) <= int_max) ->
  accumulate_multiplies_int sizes acc = Ok (acc * numel sizes).
Proof.
  induction sizes as [|x sizes IH]; intros acc Hd Hp.
  - simpl. f_equal. unfold numel. simpl. lia.
  - inversion Hd as [|? ? Hx Hd']; subst.
    simpl. rewrite (int64_to_int_exact _ Hx).
    assert (Hacc : int_min <= acc * x <= int_max).
    { specialize (Hp 1%nat). unfold numel in Hp.
      cbn [take fold_right length] in Hp. rewrite take_0 in Hp.
      cbn [foldr] in Hp.
      replace (acc * (x * 1)) with (acc * x) in Hp by lia.
      apply Hp. lia. }
    rewrite (int_mul_exact _ _ Hacc). cbn [result_bind].
    rewrite IH.
    + f_equal. unfold numel. simpl. lia.
    + assumption.
    + intros k Hk. specialize (Hp (S k)).
      unfold numel in *. cbn [take fold_right foldr length] in Hp.
      replace (acc * x * fold_right Z.mul 1 (take k sizes))
        with (acc * (x * fold_right Z.mul 1 (take k sizes))) by lia.
      apply Hp. lia.
Qed.

(** C2, as stated, at a concrete input: shape [[1]] at storage offset [-2]
    with a 4-byte type asks for [(1 + -2) * 4 = -4] bytes, which is below the
    4096 bytes of the buffer, yet [get_buffer] fails: the request is compared
    as a [size_t]. *)
Lemma get_buffer_negative_offset_fails :
  (numel [1] + -2) * 4 <= buffer_size_ example_symm
  /\ get_buffer unit (fun _ => 4) example_symm 0 [1] tt (-2)
     = Err (SizeExceeded (2 ^ 64 - 4) 4096).
Proof. split; [vm_compute; discriminate | reflexivity]. Qed.

Section GetBufferProperties.
Variable ScalarType : Type.
Variable elementSize : ScalarType -> Z.

Lemma get_buffer_unfold sm rank sizes dtype off n :
  accumulate_multiplies_int sizes 1 = Ok (numel sizes) ->
  int64_add (numel sizes) off = Ok n ->
  get_buffer ScalarType elementSize sm rank sizes dtype off =
  let req_size := wrap_size_t (to_size_t n * elementSize dtype) in
  if req_size <=? buffer_size_ sm then
    result_bind (index (buffers_ sm) rank) (fun p =>
      Ok (mkTensor p sizes off dtype (local_device_idx_ sm)))
  else Err (SizeExceeded req_size (buffer_size_ sm)).
Proof.
  intros Ha Hn. unfold get_buffer. rewrite Ha. cbn [result_bind].
  rewrite Hn. cbn [result_bind]. unfold torch_check.
  destruct (_ <=? _); reflexivity.
Qed.

(** C2, amended.  Take a shape whose dimensions and partial products all
    fit an [int], and a storage offset of type [int64_t].  If the number
    of requested elements [n = numel + offset] is not negative and
    [n * elementSize] fits a [size_t], then [get_buffer] passes its size
    check exactly when [n * elementSize <= buffer_size]: it then returns
    the view over the pointer of [rank] (for a [rank] the object has), and
    otherwise it fails with the size-exceeded error.  If [n] is negative
    (and [-n * elementSize + buffer_size] is below [2^64]) it fails with
    the size-exceeded error. *)
Theorem get_buffer_size_check sm rank sizes dtype off :
  let n := numel sizes + off in
  let es := elementSize dtype in
  let bs := buffer_size_ sm in
  Forall (fun d => int_min <= d <= int_max) sizes ->
  (forall k, (k <= length sizes)%nat ->
     int_min <= numel (take k sizes) <= int_max) ->
  - 2 ^ 63 <= n < 2 ^ 63 ->
  0 <= es ->
  (0 <= n -> n * es < 2 ^ 64 ->
     (n * es <= bs ->
        get_buffer ScalarType elementSize sm rank sizes dtype off =
        result_bind (index (buffers_ sm) rank) (fun p =>
          Ok (mkTensor p sizes off dtype (local_device_idx_ sm))))
     /\ (bs < n * es ->
           get_buffer ScalarType elementSize sm rank sizes dtype off =
           Err (SizeExceeded (n * es) bs)))
  /\ (n < 0 -> 0 <= bs -> - n * es + bs < 2 ^ 64 -> 0 < es ->
        get_buffer ScalarType elementSize sm rank sizes dtype off =
        Err (SizeExceeded (2 ^ 64 + n * es) bs)).
Proof.
  intros n es bs Hd Hp Hn Hes.
  assert (Ha : accumulate_multiplies_int sizes 1 = Ok (numel sizes)).
  { rewrite (accumulate_multiplies_int_exact sizes 1 Hd).
    - f_equal. lia.
    - intros k Hk. rewrite Z.mul_1_l. apply Hp, Hk. }
  assert (Hadd : int64_add (numel sizes) off = Ok n).
  { unfold int64_add. fold n.
    destruct (- 2 ^ 63 <=? n) eqn:E1; [|apply Z.leb_gt in E1; lia].
    destruct (n <? 2 ^ 63) eqn:E2; [|apply Z.ltb_ge in E2; lia].
    reflexivity. }
  pose proof (get_buffer_unfold sm rank sizes dtype off n Ha Hadd) as Hg.
  cbv zeta in Hg. fold es bs in Hg.
  split.
  - intros Hn0 Hfit.
    assert (Hreq : wrap_size_t (to_size_t n * es) = n * es).
    { unfold to_size_t. rewrite (wrap_size_t_small n)
        by (unfold size_t_modulus; lia).
      apply wrap_size_t_small. unfold size_t_modulus. nia. }
    rewrite Hreq in Hg. split; intros Hcmp; rewrite Hg.
    + destruct (n * es <=? bs) eqn:E; [reflexivity|].
      apply Z.leb_gt in E. lia.
    + destruct (n * es <=? bs) eqn:E; [|reflexivity].
      apply Z.leb_le in E. lia.
  - intros Hneg Hbs Hsmall Hpos.
    assert (Hreq : wrap_size_t (to_size_t n * es) = 2 ^ 64 + n * es).
    { unfold to_size_t, wrap_size_t, size_t_modulus.
      rewrite Z.mul_mod_idemp_l by lia.
      symmetry. apply (Z.mod_unique_pos _ _ (-1)); nia. }
    rewrite Hreq in Hg. rewrite Hg.
    destruct (2 ^ 64 + n * es <=? bs) eqn:E; [|reflexivity].
    apply Z.leb_le in E. nia.
Qed.
End GetBufferProperties.

(** With a buffer of 4096 bytes and a 4-byte type, shape [[1024]] at offset
    0 is served from the pointer of the rank and shape [[1025]] is refused. *)
Lemma get_buffer_size_check_witness :
  get_buffer unit (fun _ => 4) example_symm 1 [1024] tt 0
  = Ok (mkTensor 8388608 [1024] 0 tt 0)
  /\ get_buffer unit (fun _ => 4) example_symm 1 [1025] tt 0
     = Err (SizeExceeded 4100 4096)
  /\ get_buffer unit (fun _ => 4) example_symm 1 [1] tt (-2)
     = Err (SizeExceeded (2 ^ 64 + -1 * 4) 4096).
Proof.
  assert (Hdims : forall d : Z, 0 <= d <= 2000 ->
            Forall (fun d => int_min <= d <= int_max) [d]).
  { intros d Hd. constructor; [unfold int_min, int_max; lia | constructor]. }
  assert (Hprod : forall d : Z, 0 <= d <= 2000 ->
            forall k, (k <= length [d])%nat ->
              int_min <= numel (take k [d]) <= int_max).
  { intros d Hd [|[|k]] Hk; unfold numel, int_min, int_max; simpl; lia. }
  split; [|split].
  - refine (proj1 (proj1 (get_buffer_size_check unit (fun _ => 4) example_symm 1
                            [1024] tt 0 (Hdims 1024 _) (Hprod 1024 _) _ _) _ _) _);
      vm_compute; try split; congruence.
  - refine (proj2 (proj1 (get_buffer_size_check unit (fun _ => 4) example_symm 1
                            [1025] tt 0 (Hdims 1025 _) (Hprod 1025 _) _ _) _ _) _);
      vm_compute; try split; congruence.
  - refine (proj2 (get_buffer_size_check unit (fun _ => 4) example_symm 1
                     [1] tt (-2) (Hdims 1 _) (Hprod 1 _) _ _) _ _ _ _);
      vm_compute; try split; congruence.
Defined.

(** ** Reasoning about computations *)

Section HoareRules.
Context {A B : Type}.
Implicit Types (P E : World -> Prop).

Lemma hoare_bind P (m : M A) (k : A -> M B) Q R E :
  hoare P m Q E -> (forall a, hoare (Q a) (k a) R E) ->
  hoare P (bind m k) R E.
Proof.
  intros Hm Hk w Pw. unfold bind. specialize (Hm w Pw).
  destruct (m w) as [a w'| |]; [apply (Hk a w' Hm) | exact Hm | exact I].
Qed.

Lemma hoare_conseq P P' (m : M A) (Q Q' : A -> World -> Prop) E E' :
  hoare P' m Q' E' ->
  (forall w, P w -> P' w) -> (forall a w, Q' a w -> Q a w) ->
  (forall w, E' w -> E w) -> hoare P m Q E.
Proof.
  intros Hm HP HQ HE w Pw. specialize (Hm w (HP w Pw)).
  destruct (m w); auto.
Qed.

Lemma preserves_bind I (m : M A) (k : A -> M B) :
  preserves I m -> (forall a, preserves I (k a)) -> preserves I (bind m k).
Proof. intros Hm Hk. eapply hoare_bind; [exact Hm | exact Hk]. Qed.

Lemma preserves_ret I (a : A) : preserves I (ret a).
Proof. intros w Iw. exact Iw. Qed.

Lemma preserves_throw I e : preserves I (throw (A:=A) e).
Proof. intros w Iw. exact Iw. Qed.

Lemma preserves_undefined I : preserves I (undefined (A:=A)).
Proof. intros w Iw. exact Logic.I. Qed.

Lemma preserves_lift I (r : result A) : preserves I (lift r).
Proof. intros w Iw. destruct r; simpl; auto. Qed.
End HoareRules.

Lemma preserves_get_world I : preserves I get_world.
Proof. intros w Iw. exact Iw. Qed.

Lemma preserves_modify I f :
  (forall w, I w -> I (f w)) -> preserves I (modify f).
Proof. intros H w Iw. apply H, Iw. Qed.

Lemma preserves_driver_check I res : preserves I (driver_check res).
Proof. intros w Iw. unfold driver_check. destruct (res =? 0); exact Iw. Qed.

Lemma preserves_cuda_check I res : preserves I (cuda_check res).
Proof. intros w Iw. unfold cuda_check. destruct (res =? 0); exact Iw. Qed.

Lemma preserves_for_each {A S} I (body : S -> A -> M S) xs :
  (forall acc x, preserves I (body acc x)) ->
  forall acc, preserves I (for_each body xs acc).
Proof.
  intros Hb. induction xs as [|x xs IH]; intros acc; simpl.
  - apply preserves_ret.
  - apply preserves_bind; [apply Hb | exact IH].
Qed.

(** One step of a proof that a computation keeps an invariant: the rule for
    the head of the computation; [solve_update] proves that a world update
    keeps the invariant. *)
Ltac preserves_step solve_update :=
  match goal with
  | |- preserves _ (bind _ _) => apply preserves_bind; [|intros ?]
  | |- preserves _ (ret _) => apply preserves_ret
  | |- preserves _ (throw _) => apply preserves_throw
  | |- preserves _ undefined => apply preserves_undefined
  | |- preserves _ (lift _) => apply preserves_lift
  | |- preserves _ get_world => apply preserves_get_world
  | |- preserves _ (driver_check _) => apply preserves_driver_check
  | |- preserves _ (cuda_check _) => apply preserves_cuda_check
  | |- preserves _ (emit _) => apply preserves_modify; solve_update
  | |- preserves _ (modify _) => apply preserves_modify; solve_update
  | |- preserves _ (for_each _ _ _) => apply preserves_for_each; intros ? ?
  | |- preserves _ (if ?b then _ else _) => destruct b
  | |- preserves _ (match ?x with _ => _ end) => destruct x
  | |- preserves _ (let _ := _ in _) => cbv zeta
  end.

Ltac preserves_auto solve_update := repeat (preserves_step solve_update).

Ltac frame_update :=
  idtac;
  match goal with
  | H : registry_only ?I |- forall w, ?I w -> ?I _ =>
      let w := fresh "w" in
      let Hw := fresh "Hw" in
      intros w Hw; apply (H w); [reflexivity | exact Hw]
  end.

Section RegistryFrame.
Variable I : World -> Prop.
Hypothesis I_registry : registry_only I.

Lemma map_block_frame env hdl size device :
  preserves I (map_block env hdl size device).
Proof. unfold map_block. preserves_auto frame_update. Qed.

Lemma store_all_gather_frame {T} sz (tp : T -> Payload) replies rank W val :
  preserves I (store_all_gather sz tp replies rank W val).
Proof. unfold store_all_gather. preserves_auto frame_update. Qed.

Lemma store_barrier_frame replies rank W :
  preserves I (store_barrier replies rank W).
Proof.
  unfold store_barrier. apply preserves_bind;
    [apply store_all_gather_frame | intros; apply preserves_ret].
Qed.

Lemma import_peer_frame env block ptr rank reqs m r :
  preserves I (import_peer env block ptr rank reqs m r).
Proof.
  unfold import_peer, import_remote_fd.
  destruct (r =? rank); [apply preserves_ret|].
  apply preserves_bind; [apply preserves_lift | intros ?].
  apply preserves_bind;
    [apply preserves_bind; [preserves_auto frame_update | intros; apply preserves_ret]
    | intros ?].
  apply preserves_bind; [preserves_auto frame_update | intros ?].
  apply preserves_bind; [apply preserves_driver_check | intros ?].
  apply preserves_bind; [apply map_block_frame | intros ?].
  preserves_auto frame_update.
Qed.

Lemma ctor_frame env hs bsz bufs pads bufsz dev rank W :
  preserves I (CUDASymmetricMemory_ctor env hs bsz bufs pads bufsz dev rank W).
Proof. unfold CUDASymmetricMemory_ctor. preserves_auto frame_update. Qed.

Lemma dtor_frame env sm : preserves I (CUDASymmetricMemory_dtor env sm).
Proof. unfold CUDASymmetricMemory_dtor. preserves_auto frame_update. Qed.

Lemma retain_ref_frame s : preserves I (retain_ref s).
Proof. unfold retain_ref. preserves_auto frame_update. Qed.

Lemma release_ref_frame env s : preserves I (release_ref env s).
Proof.
  unfold release_ref.
  apply preserves_bind; [apply preserves_get_world | intros w0].
  destruct (symm_objs w0 !! s) as [[sm n]|]; [|apply preserves_undefined].
  destruct (n <=? 1)%nat.
  - apply preserves_bind; [preserves_auto frame_update | intros ?].
    apply dtor_frame.
  - preserves_auto frame_update.
Qed.

Lemma with_object_frame s f :
  (forall sm, preserves I (f sm)) -> preserves I (with_object s f).
Proof.
  intros Hf. unfold with_object.
  apply preserves_bind; [apply preserves_get_world | intros w0].
  destruct (symm_objs w0 !! s) as [[sm n]|]; [apply Hf | apply preserves_undefined].
Qed.

Lemma barrier_frame res sm c : preserves I (barrier res sm c).
Proof. unfold barrier. preserves_auto frame_update. Qed.

Lemma put_signal_frame res sm dst c : preserves I (put_signal res sm dst c).
Proof. unfold put_signal. preserves_auto frame_update. Qed.

Lemma wait_signal_frame res sm src c : preserves I (wait_signal res sm src c).
Proof. unfold wait_signal. preserves_auto frame_update. Qed.
End RegistryFrame.

(** ** What each operation does to the registry *)

Lemma hoare_get_world_bind {B} P (k : World -> M B) Q E :
  (forall w0, P w0 -> hoare (fun w => w = w0) (k w0) Q E) ->
  hoare P (bind get_world k) Q E.
Proof. intros H w Pw. unfold bind, get_world. apply (H w Pw w eq_refl). Qed.

Lemma hoare_pre {A} P P' (m : M A) Q E :
  hoare P' m Q E -> (forall w, P w -> P' w) -> hoare P m Q E.
Proof. intros Hm HP w Pw. apply Hm, HP, Pw. Qed.

Lemma preserves_weaken {A} I P (m : M A) Q E :
  preserves I m ->
  (forall w, P w -> I w) -> (forall a w, I w -> Q a w) -> (forall w, I w -> E w) ->
  hoare P m Q E.
Proof. intros Hm HP HQ HE. eapply hoare_conseq; eauto. Qed.

Lemma hoare_world_of {A} P (m : M A) Q E w w' :
  hoare P m Q E -> P w -> world_of (m w) = Some w' ->
  (exists a, m w = Ret a w' /\ Q a w') \/ E w'.
Proof.
  intros Hm Pw Hw. specialize (Hm w Pw).
  destruct (m w) as [a w1|e w1|]; simpl in Hw; [| |discriminate];
    injection Hw as ->; [left; eauto | right; exact Hm].
Qed.

Lemma registry_only_eq m0 : registry_only (fun w => ptr_to_block_ w = m0).
Proof. intros w w' Heq Hw. rewrite <- Heq. exact Hw. Qed.

Lemma alloc_registry env size device group m0 :
  hoare (fun w => ptr_to_block_ w = m0) (alloc env size device group)
    (fun p w' =>
       p = reserve_ptr (alloc_map env)
       /\ ptr_to_block_ w' = emplace p (new_block env size device group) m0)
    (fun w' => ptr_to_block_ w' = m0).
Proof.
  pose proof (registry_only_eq m0) as Hreg.
  set (Inv := fun w => ptr_to_block_ w = m0) in *.
  unfold alloc. cbv zeta.
  eapply hoare_bind; [apply preserves_modify; frame_update | intros ?].
  eapply hoare_bind; [apply preserves_driver_check | intros ?].
  destruct (granularity env =? 0); [intros w _; exact Logic.I|].
  eapply hoare_bind; [apply preserves_modify; frame_update | intros ?].
  eapply hoare_bind; [apply preserves_driver_check | intros ?].
  eapply (hoare_bind _ _ _ (fun p w => p = reserve_ptr (alloc_map env) /\ Inv w)).
  { unfold map_block.
    eapply hoare_bind; [apply preserves_modify; frame_update | intros ?].
    eapply hoare_bind; [apply preserves_driver_check | intros ?].
    eapply hoare_bind; [apply preserves_modify; frame_update | intros ?].
    eapply hoare_bind; [apply preserves_driver_check | intros ?].
    eapply hoare_bind; [apply preserves_modify; frame_update | intros ?].
    eapply hoare_bind; [apply preserves_driver_check | intros ?].
    intros w Iw. simpl. split; [reflexivity | exact Iw]. }
  intros p.
  eapply (hoare_bind _ _ _ (fun _ w => p = reserve_ptr (alloc_map env) /\ Inv w)).
  { intros w [Hp Iw]. simpl. split; assumption. }
  intros ?.
  eapply (hoare_bind _ _ _ (fun _ w => p = reserve_ptr (alloc_map env) /\ Inv w)).
  { intros w [Hp Iw]. unfold cuda_check.
    destruct (memset_res env =? 0); simpl; [split; assumption | exact Iw]. }
  intros ?.
  eapply (hoare_bind _ _ _
            (fun _ w => p = reserve_ptr (alloc_map env)
                        /\ ptr_to_block_ w
                           = emplace p (new_block env size device group) m0)).
  { intros w [Hp Iw]. simpl. split; [exact Hp|]. unfold Inv in Iw.
    rewrite Iw. reflexivity. }
  intros ? w Hw. exact Hw.
Qed.

Lemma free_registry env ptr m0 :
  let after := fun w => ptr_to_block_ w = m0 \/ ptr_to_block_ w = delete ptr m0 in
  hoare (fun w => ptr_to_block_ w = m0) (free env ptr) (fun _ => after) after.
Proof.
  intros after.
  pose proof (registry_only_eq m0) as Hreg.
  pose proof (registry_only_eq (delete ptr m0)) as Hreg'.
  unfold free.
  apply hoare_get_world_bind. intros w0 Hw0.
  apply hoare_pre with (P' := fun w => ptr_to_block_ w = m0);
    [|intros w ->; exact Hw0].
  destruct (find_block w0 ptr) as [block|]; [|intros w Hw; left; exact Hw].
  destruct (is_finalizing env); [intros w Hw; left; exact Hw|].
  eapply (hoare_bind _ _ _ (fun _ w => ptr_to_block_ w = m0)).
  { apply (preserves_weaken (fun w => ptr_to_block_ w = m0));
      [|intros w Hw; exact Hw | intros ? w Hw; exact Hw | intros w Hw; left; exact Hw].
    set (Inv := fun w => ptr_to_block_ w = m0) in *.
    destruct (symm_mem block); preserves_auto frame_update. }
  intros ?.
  eapply (hoare_bind _ _ _ (fun _ w => ptr_to_block_ w = delete ptr m0)).
  { intros w Hw. simpl. rewrite Hw. reflexivity. }
  intros ?.
  apply (preserves_weaken (fun w => ptr_to_block_ w = delete ptr m0));
    [|intros w Hw; exact Hw | intros ? w Hw; right; exact Hw
     | intros w Hw; right; exact Hw].
  destruct (symm_mem block);
    [apply (release_ref_frame _ Hreg') | apply preserves_ret].
Qed.

Lemma rendezvous_registry env ptr m0 :
  hoare (fun w => ptr_to_block_ w = m0) (rendezvous env ptr)
    (fun s w' =>
       exists b, m0 !! ptr = Some b
         /\ ((symm_mem b = Some s /\ ptr_to_block_ w' = m0)
             \/ (symm_mem b = None
                 /\ ptr_to_block_ w'
                    = alter (fun b => set_symm_mem b (Some s)) ptr m0)))
    (fun w' => ptr_to_block_ w' = m0).
Proof.
  pose proof (registry_only_eq m0) as Hreg.
  set (Inv := fun w => ptr_to_block_ w = m0) in *.
  unfold rendezvous.
  apply hoare_get_world_bind. intros w0 Hw0.
  unfold find_block. rewrite Hw0.
  destruct (m0 !! ptr) as [block|] eqn:Hb;
    [|intros w ->; simpl; exact Hw0].
  apply hoare_pre with (P' := Inv); [|intros w ->; exact Hw0].
  destruct (symm_mem block) as [s|] eqn:Hs.
  - eapply hoare_bind; [apply (retain_ref_frame _ Hreg) | intros ?].
    intros w Hw. simpl. exists block. split; [reflexivity|]. left.
    split; [exact Hs | exact Hw].
  - cbv zeta.
    eapply hoare_bind; [apply preserves_modify; frame_update | intros ?].
    eapply hoare_bind; [apply preserves_driver_check | intros ?].
    eapply hoare_bind; [apply (store_all_gather_frame _ Hreg) | intros reqs].
    eapply hoare_bind; [apply preserves_lift | intros ?].
    eapply hoare_bind;
      [apply preserves_for_each; intros; apply (import_peer_frame _ Hreg)
      | intros m].
    eapply hoare_bind; [apply (store_barrier_frame _ Hreg) | intros ?].
    eapply hoare_bind; [apply preserves_modify; frame_update | intros ?].
    eapply hoare_bind; [apply (ctor_frame _ Hreg) | intros sm].
    eapply hoare_bind; [apply (preserves_get_world Inv) | intros w'].
    eapply hoare_bind; [apply preserves_modify; frame_update | intros ?].
    eapply hoare_bind; [apply preserves_modify; frame_update | intros ?].
    eapply (hoare_bind _ _ _
              (fun _ w => ptr_to_block_ w
                 = alter (fun b => set_symm_mem b (Some (next_obj w'))) ptr m0)).
    { intros w Hw. simpl. rewrite Hw. reflexivity. }
    intros ? w Hw. simpl. exists block. split; [reflexivity|]. right.
    split; [exact Hs | exact Hw].
Qed.

Lemma exec_op_registry op w w' :
  exec_op op w = Some w' ->
  registry_step op (ptr_to_block_ w) (ptr_to_block_ w').
Proof.
  pose proof (registry_only_eq (ptr_to_block_ w)) as Hreg.
  destruct op as [env size device group|env ptr|env ptr|env s|res s c
                 |res s dst c|res s src c]; simpl; intros Hex.
  - destruct (hoare_world_of _ _ _ _ w w'
                (alloc_registry env size device group (ptr_to_block_ w))
                eq_refl Hex) as [(p & _ & _ & Hp)|Hp].
    + right. exists p. exact Hp.
    + left. exact Hp.
  - destruct (hoare_world_of _ _ _ _ w w'
                (free_registry env ptr (ptr_to_block_ w)) eq_refl Hex)
      as [(_ & _ & Hp)|Hp]; exact Hp.
  - destruct (hoare_world_of _ _ _ _ w w'
                (rendezvous_registry env ptr (ptr_to_block_ w)) eq_refl Hex)
      as [(s & _ & b & Hb & [[_ Hp]|[Hs Hp]])|Hp].
    + left. exact Hp.
    + right. exists b, s. auto.
    + left. exact Hp.
  - destruct (hoare_world_of _ _ _ _ w w' (release_ref_frame _ Hreg env s)
                eq_refl Hex) as [(_ & _ & Hp)|Hp]; exact Hp.
  - destruct (hoare_world_of _ _ _ _ w w'
                (with_object_frame _ s _ (fun sm => barrier_frame _ Hreg res sm c))
                eq_refl Hex) as [(_ & _ & Hp)|Hp]; exact Hp.
  - destruct (hoare_world_of _ _ _ _ w w'
                (with_object_frame _ s _
                   (fun sm => put_signal_frame _ Hreg res sm dst c))
                eq_refl Hex) as [(_ & _ & Hp)|Hp]; exact Hp.
  - destruct (hoare_world_of _ _ _ _ w w'
                (with_object_frame _ s _
                   (fun sm => wait_signal_frame _ Hreg res sm src c))
                eq_refl Hex) as [(_ & _ & Hp)|Hp]; exact Hp.
Qed.

Lemma block_evolves_refl b : block_evolves b b.
Proof. left. reflexivity. Qed.

Lemma block_evolves_trans a b c :
  block_evolves a b -> block_evolves b c -> block_evolves a c.
Proof.
  intros [->|[Hn [s ->]]] [->|[Hn' [s' ->]]].
  - left; reflexivity.
  - right; eauto.
  - right; eauto.
  - simpl in Hn'. discriminate.
Qed.

(** A registered block stays registered, with at most its [symm_mem]
    written, through every operation that is not a [free] of its pointer. *)
Lemma exec_op_keeps op w w' p b :
  exec_op op w = Some w' -> is_free_of p op = false ->
  ptr_to_block_ w !! p = Some b ->
  exists b', ptr_to_block_ w' !! p = Some b' /\ block_evolves b b'.
Proof.
  intros Hex Hfree Hb. apply exec_op_registry in Hex.
  destruct op as [env size device group|env ptr|env ptr|env s|res s c
                 |res s dst c|res s src c]; simpl in Hex, Hfree;
    try (rewrite Hex; exists b; split; [exact Hb | apply block_evolves_refl]).
  - destruct Hex as [->|[q ->]];
      [exists b; split; [exact Hb | apply block_evolves_refl]|].
    exists b. split; [|apply block_evolves_refl].
    unfold emplace. destruct (ptr_to_block_ w !! q) eqn:Hq; [exact Hb|].
    rewrite lookup_insert_ne; [exact Hb|]. intros ->. congruence.
  - apply Z.eqb_neq in Hfree.
    destruct Hex as [->| ->];
      [exists b; split; [exact Hb | apply block_evolves_refl]|].
    exists b. split; [|apply block_evolves_refl].
    rewrite lookup_delete_ne; [exact Hb | exact Hfree].
  - destruct Hex as [->|(b0 & s & Hb0 & Hs & ->)];
      [exists b; split; [exact Hb | apply block_evolves_refl]|].
    destruct (decide (ptr = p)) as [->|Hne].
    + rewrite lookup_alter_eq, Hb. simpl.
      exists (set_symm_mem b (Some s)). split; [reflexivity|].
      right. split; [congruence | eauto].
    + rewrite lookup_alter_ne by exact Hne.
      exists b; split; [exact Hb | apply block_evolves_refl].
Qed.

(** Every registered block was registered before the operation, or is the
    record the operation, an [alloc], has just built. *)
Lemma exec_op_origin op w w' p b' :
  exec_op op w = Some w' -> ptr_to_block_ w' !! p = Some b' ->
  (exists b, ptr_to_block_ w !! p = Some b /\ block_evolves b b')
  \/ (exists env size device group,
        op = OpAlloc env size device group
        /\ b' = new_block env size device group).
Proof.
  intros Hex Hb'. apply exec_op_registry in Hex.
  destruct op as [env size device group|env ptr|env ptr|env s|res s c
                 |res s dst c|res s src c]; simpl in Hex;
    try (rewrite Hex in Hb'; left; exists b'; split;
         [exact Hb' | apply block_evolves_refl]).
  - destruct Hex as [Hex|[q Hex]]; rewrite Hex in Hb';
      [left; exists b'; split; [exact Hb' | apply block_evolves_refl]|].
    unfold emplace in Hb'. destruct (ptr_to_block_ w !! q) eqn:Hq;
      [left; exists b'; split; [exact Hb' | apply block_evolves_refl]|].
    destruct (decide (q = p)) as [->|Hne].
    + rewrite lookup_insert_eq in Hb'. injection Hb' as <-.
      right. eauto 6.
    + rewrite lookup_insert_ne in Hb' by exact Hne.
      left; exists b'; split; [exact Hb' | apply block_evolves_refl].
  - destruct Hex as [Hex|Hex]; rewrite Hex in Hb';
      [left; exists b'; split; [exact Hb' | apply block_evolves_refl]|].
    destruct (decide (ptr = p)) as [->|Hne].
    + rewrite lookup_delete_eq in Hb'. discriminate.
    + rewrite lookup_delete_ne in Hb' by exact Hne.
      left; exists b'; split; [exact Hb' | apply block_evolves_refl].
  - destruct Hex as [Hex|(b0 & s & Hb0 & Hs & Hex)]; rewrite Hex in Hb';
      [left; exists b'; split; [exact Hb' | apply block_evolves_refl]|].
    destruct (decide (ptr = p)) as [->|Hne].
    + rewrite lookup_alter_eq, Hb0 in Hb'. simpl in Hb'. injection Hb' as <-.
      left. exists b0. split; [exact Hb0|]. right. eauto.
    + rewrite lookup_alter_ne in Hb' by exact Hne.
      left; exists b'; split; [exact Hb' | apply block_evolves_refl].
Qed.

Lemma exec_all_keeps ops : forall w w' p b,
  exec_all ops w = Some w' -> forallb (not_free_of p) ops = true ->
  ptr_to_block_ w !! p = Some b ->
  exists b', ptr_to_block_ w' !! p = Some b' /\ block_evolves b b'.
Proof.
  induction ops as [|op ops IH]; intros w w' p b Hex Hnf Hb; simpl in Hex.
  - injection Hex as <-. exists b. split; [exact Hb | apply block_evolves_refl].
  - simpl in Hnf. apply andb_true_iff in Hnf as [Hop Hnf].
    unfold not_free_of in Hop. apply negb_true_iff in Hop.
    destruct (exec_op op w) as [w1|] eqn:H1; [|discriminate].
    destruct (exec_op_keeps _ _ _ _ _ H1 Hop Hb) as (b1 & Hb1 & He1).
    destruct (IH _ _ _ _ Hex Hnf Hb1) as (b2 & Hb2 & He2).
    exists b2. split; [exact Hb2 | eapply block_evolves_trans; eassumption].
Qed.

(** ** [rendezvous] is idempotent *)

Lemma rendezvous_cached env p w b s :
  find_block w p = Some b -> symm_mem b = Some s ->
  rendezvous env p w
  = Ret s (set_symm_objs (alter (fun o => (o.1, S o.2)) s) w).
Proof.
  intros Hb Hs. unfold rendezvous, bind, get_world. rewrite Hb, Hs.
  reflexivity.
Qed.

Lemma rendezvous_unknown env p w :
  find_block w p = None ->
  rendezvous env p w = Throw (NotAllocated "rendezvous") w.
Proof. intros Hb. unfold rendezvous, bind, get_world. rewrite Hb. reflexivity. Qed.

Lemma rendezvous_stores env p w s w1 :
  rendezvous env p w = Ret s w1 ->
  exists b, find_block w1 p = Some b /\ symm_mem b = Some s.
Proof.
  intros Hr.
  pose proof (rendezvous_registry env p (ptr_to_block_ w) w eq_refl) as H.
  rewrite Hr in H. destruct H as (b & Hb & [[Hs Hreg]|[Hs Hreg]]).
  - exists b. unfold find_block. rewrite Hreg. auto.
  - exists (set_symm_mem b (Some s)). unfold find_block.
    rewrite Hreg, lookup_alter_eq, Hb. auto.
Qed.

Lemma block_evolves_symm_mem b b' s :
  symm_mem b = Some s -> block_evolves b b' -> b' = b.
Proof. intros Hs [->|[Hn _]]; [reflexivity | congruence]. Qed.

(** C3. Once [rendezvous] on a pointer has returned a [CUDASymmetricMemory],
    that object is stored on the Block, and after any further operations
    that do not free the pointer, [rendezvous] on it returns the same
    reference: nothing is exchanged (the trace and the sequence counter are
    as before) and the registry is untouched; only the reference count of
    the object grows.  On a pointer that is not registered [rendezvous]
    fails. *)
Theorem rendezvous_idempotent :
  (forall env p w s w1,
     rendezvous env p w = Ret s w1 ->
     (exists b, find_block w1 p = Some b /\ symm_mem b = Some s)
     /\ forall ops w2 env',
          forallb (not_free_of p) ops = true ->
          exec_all ops w1 = Some w2 ->
          exists w3,
            rendezvous env' p w2 = Ret s w3
            /\ trace w3 = trace w2
            /\ store_comm_seq_id w3 = store_comm_seq_id w2
            /\ ptr_to_block_ w3 = ptr_to_block_ w2)
  /\ (forall env p w,
        find_block w p = None ->
        rendezvous env p w = Throw (NotAllocated "rendezvous") w).
Proof.
  split.
  - intros env p w s w1 Hr.
    destruct (rendezvous_stores _ _ _ _ _ Hr) as (b & Hb & Hs).
    split; [eauto|].
    intros ops w2 env' Hnf Hex.
    destruct (exec_all_keeps ops w1 w2 p b Hex Hnf Hb) as (b' & Hb' & Hev).
    rewrite (block_evolves_symm_mem _ _ _ Hs Hev) in Hb'.
    eexists. split; [apply (rendezvous_cached env' p w2 b s Hb' Hs)|].
    repeat split.
  - apply rendezvous_unknown.
Qed.

Lemma rendezvous_idempotent_witness :
  exists w3,
    rendezvous (pair_rendezvous (mkRequest 1 5 2000 2097152 4096 4096)) 4096
      (world_after [OpAlloc (ok_alloc 4096 7) 4096 0 "g";
                    OpRendezvous solo_rendezvous 4096;
                    OpAlloc (ok_alloc 16777216 9) 64 0 "g";
                    OpPutSignal 0 0 0 0])
    = Ret 0%nat w3
    /\ trace w3
       = trace (world_after [OpAlloc (ok_alloc 4096 7) 4096 0 "g";
                             OpRendezvous solo_rendezvous 4096;
                             OpAlloc (ok_alloc 16777216 9) 64 0 "g";
                             OpPutSignal 0 0 0 0]).
Proof.
  set (alloc1 := OpAlloc (ok_alloc 4096 7) 4096 0 "g").
  set (later := [OpAlloc (ok_alloc 16777216 9) 64 0 "g"; OpPutSignal 0 0 0 0]).
  assert (H1 : rendezvous solo_rendezvous 4096 (world_after [alloc1])
               = Ret 0%nat (world_after [alloc1; OpRendezvous solo_rendezvous 4096]))
    by (vm_compute; reflexivity).
  assert (H2 : forallb (not_free_of 4096) later = true) by reflexivity.
  assert (H3 : exec_all later
                 (world_after [alloc1; OpRendezvous solo_rendezvous 4096])
               = Some (world_after
                         (alloc1 :: OpRendezvous solo_rendezvous 4096 :: later)))
    by (vm_compute; reflexivity).
  destruct (proj2 (proj1 rendezvous_idempotent _ _ _ _ _ H1) later _
              (pair_rendezvous (mkRequest 1 5 2000 2097152 4096 4096)) H2 H3)
    as (w3 & Hr & Ht & _).
  exists w3. split; [exact Hr | exact Ht].
Defined.

(** ** Sizes of a block *)

(** Away from the end of the [size_t] range [round_up] is the least multiple
    of [b] that is not below [a]. *)
Lemma round_up_exact a b :
  0 <= a -> 0 < b -> a + b <= size_t_modulus ->
  round_up a b = (a + b - 1) / b * b
  /\ a <= round_up a b < a + b
  /\ (b | round_up a b).
Proof.
  intros Ha Hb Hfit. unfold round_up, ceil_div.
  rewrite (wrap_size_t_small (a + b - 1)) by lia.
  pose proof (Z.div_mod (a + b - 1) b ltac:(lia)) as Hdm.
  pose proof (Z.mod_pos_bound (a + b - 1) b Hb) as Hmod.
  assert (Hq : 0 <= (a + b - 1) / b) by (apply Z.div_pos; lia).
  assert (Hr : a <= (a + b - 1) / b * b < a + b) by nia.
  rewrite wrap_size_t_small by lia.
  split; [reflexivity|]. split; [exact Hr|].
  exists ((a + b - 1) / b). reflexivity.
Qed.

Lemma new_block_invariant env size device group :
  0 <= size -> 0 < granularity env ->
  size + 15 + signal_pad_size + granularity env <= size_t_modulus ->
  block_invariant (new_block env size device group)
  /\ size <= signal_pad_offset (new_block env size device group) < size + 16
  /\ (16 | signal_pad_offset (new_block env size device group))
  /\ (granularity env | block_size (new_block env size device group)).
Proof.
  intros Hs Hg Hfit. unfold block_invariant, new_block; cbn [signal_pad_offset
    buffer_size block_size].
  unfold signal_pad_size in *.
  destruct (round_up_exact size 16) as (_ & Hr1 & Hd1); [lia..|].
  rewrite (wrap_size_t_small (round_up size 16 + 2048)) by lia.
  destruct (round_up_exact (round_up size 16 + 2048) (granularity env))
    as (_ & Hr2 & Hd2); [lia..|].
  repeat split; try assumption; lia.
Qed.

Lemma block_evolves_sizes b b' :
  block_evolves b b' ->
  buffer_size b' = buffer_size b /\ block_size b' = block_size b
  /\ signal_pad_offset b' = signal_pad_offset b.
Proof. intros [->|[_ [s ->]]]; repeat split. Qed.

Lemma alloc_registers env size device group w p w1 :
  alloc env size device group w = Ret p w1 ->
  ptr_to_block_ w !! p = None ->
  ptr_to_block_ w1 !! p = Some (new_block env size device group).
Proof.
  intros Ha Hfresh.
  pose proof (alloc_registry env size device group (ptr_to_block_ w) w eq_refl)
    as H.
  rewrite Ha in H. destruct H as [_ ->].
  unfold emplace. rewrite Hfresh. apply lookup_insert_eq.
Qed.

(** C5, as stated, at a concrete input: a request of [2^64 - 1] bytes is
    accepted (the rounding wraps to a pad offset of 0), and the Block that is
    registered has a [block_size] of one allocation granule, far below
    [buffer_size + signal_pad_size]. *)
Lemma alloc_huge_size_breaks_block_size :
  exists w b,
    alloc (ok_alloc 4096 7) (2 ^ 64 - 1) 0 "g" initial_world = Ret 4096 w
    /\ ptr_to_block_ w !! 4096 = Some b
    /\ buffer_size b = 2 ^ 64 - 1
    /\ signal_pad_offset b = 0
    /\ block_size b = 2097152
    /\ block_size b < buffer_size b + signal_pad_size.
Proof.
  eexists. eexists. split; [vm_compute; reflexivity|].
  split; [vm_compute; reflexivity|]. repeat split.
Qed.

(** C5, amended.  For every request whose size computations do not wrap
    ([size + 15 + signal_pad_size + granularity <= 2^64], with a positive
    granularity), the Block [alloc] builds has
    [signal_pad_offset = round_up(size, 16)], which is the least multiple of
    16 not below [size], and a [block_size], a multiple of the granularity,
    of at least [buffer_size + signal_pad_size]; and in every world reached
    from the start of the process by operations whose requests are of that
    kind, every Block of the registry satisfies both. *)
Theorem alloc_block_invariant :
  (forall env size device group,
     0 <= size -> 0 < granularity env ->
     size + 15 + signal_pad_size + granularity env <= size_t_modulus ->
     let b := new_block env size device group in
     (forall w p w1,
        alloc env size device group w = Ret p w1 ->
        ptr_to_block_ w !! p = None -> ptr_to_block_ w1 !! p = Some b)
     /\ signal_pad_offset b = round_up size 16
     /\ size <= signal_pad_offset b < size + 16
     /\ (16 | signal_pad_offset b)
     /\ buffer_size b + signal_pad_size <= block_size b
     /\ (granularity env | block_size b))
  /\ (forall ops w,
        forallb alloc_fits ops = true ->
        exec_all ops initial_world = Some w ->
        forall p b, ptr_to_block_ w !! p = Some b -> block_invariant b).
Proof.
  split.
  - intros env size device group Hs Hg Hfit b.
    destruct (new_block_invariant env size device group Hs Hg Hfit)
      as ([Hi1 Hi2] & Hr & Hd & Hdg).
    split; [intros w p w1; apply alloc_registers|].
    repeat split; try assumption; apply Hr.
  - intros ops.
    assert (Hgen : forall w0 w,
              (forall p b, ptr_to_block_ w0 !! p = Some b -> block_invariant b) ->
              forallb alloc_fits ops = true ->
              exec_all ops w0 = Some w ->
              forall p b, ptr_to_block_ w !! p = Some b -> block_invariant b).
    { induction ops as [|op ops IH]; intros w0 w Hinv Hfit Hex p b Hb;
        simpl in Hex.
      - injection Hex as <-. eapply Hinv, Hb.
      - simpl in Hfit. apply andb_true_iff in Hfit as [Hop Hfit].
        destruct (exec_op op w0) as [w1|] eqn:H1; [|discriminate].
        refine (IH w1 w _ Hfit Hex p b Hb).
        intros q c Hc.
        destruct (exec_op_origin _ _ _ _ _ H1 Hc)
          as [(c0 & Hc0 & Hev)|(env & size & device & group & -> & ->)].
        + destruct (block_evolves_sizes _ _ Hev) as (E1 & E2 & E3).
          destruct (Hinv q c0 Hc0) as [I1 I2].
          unfold block_invariant. rewrite E1, E2, E3. split; assumption.
        + simpl in Hop. apply andb_true_iff in Hop as [Hop H3].
          apply andb_true_iff in Hop as [H1' H2'].
          apply Z.leb_le in H1', H3. apply Z.ltb_lt in H2'.
          apply new_block_invariant; assumption. }
    intros w Hfit Hex. apply (Hgen initial_world w); [|assumption..].
    intros p b Hb. simpl in Hb. rewrite lookup_empty in Hb. discriminate.
Qed.

Lemma alloc_block_invariant_witness :
  let b := new_block (ok_alloc 4096 7) 100 0 "g" in
  signal_pad_offset b = round_up 100 16
  /\ 100 <= signal_pad_offset b < 100 + 16
  /\ buffer_size b + signal_pad_size <= block_size b
  /\ (forall p b,
        ptr_to_block_
          (world_after [OpAlloc (ok_alloc 4096 7) 100 0 "g";
                        OpRendezvous solo_rendezvous 4096;
                        OpAlloc (ok_alloc 16777216 9) 64 0 "g"]) !! p = Some b ->
        block_invariant b).
Proof.
  intros b.
  destruct (proj1 alloc_block_invariant (ok_alloc 4096 7) 100 0 "g")
    as (_ & H1 & H2 & _ & H3 & _);
    [vm_compute; congruence | reflexivity | vm_compute; congruence |].
  split; [exact H1|]. split; [exact H2|]. split; [exact H3|].
  apply (proj2 alloc_block_invariant
           [OpAlloc (ok_alloc 4096 7) 100 0 "g";
            OpRendezvous solo_rendezvous 4096;
            OpAlloc (ok_alloc 16777216 9) 64 0 "g"]).
  - reflexivity.
  - vm_compute. reflexivity.
Defined.

(** ** [get_alloc_size] *)

Lemma get_alloc_size_found p w b :
  find_block w p = Some b -> get_alloc_size p w = Ret (buffer_size b) w.
Proof. intros Hb. unfold get_alloc_size, bind, get_world. rewrite Hb. reflexivity. Qed.

Lemma get_alloc_size_unknown p w :
  find_block w p = None ->
  get_alloc_size p w = Throw (NotAllocated "get_alloc_size") w.
Proof. intros Hb. unfold get_alloc_size, bind, get_world. rewrite Hb. reflexivity. Qed.

(** C7. A pointer [alloc(size, ...)] returns, fresh in the registry as every
    address the driver reserves is, answers [get_alloc_size] with exactly
    [size], not the rounded block size, for as long as it is registered,
    that is, through any operations that do not free it; on a pointer that
    is not registered [get_alloc_size] fails. *)
Theorem get_alloc_size_returns_requested :
  (forall env size device group w p w1,
     alloc env size device group w = Ret p w1 ->
     ptr_to_block_ w !! p = None ->
     forall ops w2,
       forallb (not_free_of p) ops = true ->
       exec_all ops w1 = Some w2 ->
       get_alloc_size p w2 = Ret size w2)
  /\ (forall p w,
        ptr_to_block_ w !! p = None ->
        get_alloc_size p w = Throw (NotAllocated "get_alloc_size") w).
Proof.
  split.
  - intros env size device group w p w1 Ha Hfresh ops w2 Hnf Hex.
    pose proof (alloc_registers _ _ _ _ _ _ _ Ha Hfresh) as Hb.
    destruct (exec_all_keeps ops w1 w2 p _ Hex Hnf Hb) as (b' & Hb' & Hev).
    destruct (block_evolves_sizes _ _ Hev) as (E1 & _).
    rewrite (get_alloc_size_found p w2 b' Hb'), E1. reflexivity.
  - intros p w Hnone. apply get_alloc_size_unknown. exact Hnone.
Qed.

Lemma get_alloc_size_returns_requested_witness :
  get_alloc_size 4096
    (world_after [OpAlloc (ok_alloc 4096 7) 100 0 "g";
                  OpRendezvous solo_rendezvous 4096;
                  OpAlloc (ok_alloc 16777216 9) 64 0 "g"])
  = Ret 100
      (world_after [OpAlloc (ok_alloc 4096 7) 100 0 "g";
                    OpRendezvous solo_rendezvous 4096;
                    OpAlloc (ok_alloc 16777216 9) 64 0 "g"])
  /\ get_alloc_size 5 initial_world
     = Throw (NotAllocated "get_alloc_size") initial_world.
Proof.
  split.
  - refine (proj1 get_alloc_size_returns_requested (ok_alloc 4096 7) 100 0 "g"
              initial_world 4096
              (world_after [OpAlloc (ok_alloc 4096 7) 100 0 "g"]) _ _
              [OpRendezvous solo_rendezvous 4096;
               OpAlloc (ok_alloc 16777216 9) 64 0 "g"] _ _ _).
    + vm_compute. reflexivity.
    + reflexivity.
    + reflexivity.
    + vm_compute. reflexivity.
  - apply (proj2 get_alloc_size_returns_requested). reflexivity.
Defined.

(** ** [free] *)

Lemma mapped_app t1 t2 p :
  mapped (t1 ++ t2) p = fold_left (mapped_step p) t2 (mapped t1 p).
Proof. unfold mapped. apply fold_left_app. Qed.

(** C6, as stated, at a concrete input: one process allocates, runs
    [rendezvous] (a group of one) and gives up the reference [rendezvous]
    returned.  The Block still holds the [CUDASymmetricMemory], ownership
    was transferred, and the pointer is mapped; yet [free] does not leave
    the mapping live: erasing the Block drops the last reference, and the
    destructor unmaps the block and releases its handle. *)
Lemma free_after_rendezvous_drops_last_reference :
  let w := world_after [OpAlloc (ok_alloc 4096 7) 4096 0 "g";
                        OpRendezvous solo_rendezvous 4096;
                        OpRelease ok_dtor 0] in
  (exists b, find_block w 4096 = Some b /\ symm_mem b = Some 0%nat)
  /\ mapped (trace w) 4096 = true
  /\ exists w',
       free ok_free 4096 w = Ret tt w'
       /\ find_block w' 4096 = None
       /\ mapped (trace w') 4096 = false
       /\ trace w' = trace w ++ [CudaDeviceSynchronize 0;
                                 CuMemUnmap 4096 2097152 0;
                                 CuMemRelease 7 0;
                                 RawDelete 512; RawDelete 1024].
Proof.
  intros w. split; [|split].
  - eexists. split; vm_compute; reflexivity.
  - vm_compute. reflexivity.
  - eexists. split; [vm_compute; reflexivity|].
    split; [vm_compute; reflexivity|].
    split; vm_compute; reflexivity.
Qed.

(** C6, amended.  [free] is a no-op on an unknown pointer and during
    teardown.  Otherwise, on a Block that never went through [rendezvous],
    it unmaps the block, releases the handle (both calls succeeding) and
    erases the registry entry, so the pointer is no longer mapped and
    [get_alloc_size] on it fails as unknown.  On a Block whose ownership
    [rendezvous] transferred, [free] itself calls neither unmap nor release:
    it erases the entry and drops the Block's reference to the
    [CUDASymmetricMemory]; when another reference is still held the trace,
    hence the mapping, is as before, and when the Block held the last one
    the destructor of the object runs. *)
Theorem free_behaviour env p w :
  (find_block w p = None \/ is_finalizing env = true -> free env p w = Ret tt w)
  /\ (forall b,
        find_block w p = Some b -> symm_mem b = None ->
        is_finalizing env = false ->
        free_unmap_res env = 0 -> free_release_res env = 0 ->
        let w' :=
          set_ptr_to_block (delete p)
            (log (CuMemRelease (handle b) 0)
               (log (CuMemUnmap p (block_size b) 0) w)) in
        free env p w = Ret tt w'
        /\ mapped (trace w') p = false
        /\ get_alloc_size p w' = Throw (NotAllocated "get_alloc_size") w')
  /\ (forall b s sm n,
        find_block w p = Some b -> symm_mem b = Some s ->
        is_finalizing env = false ->
        symm_objs w !! s = Some (sm, n) ->
        ((2 <= n)%nat ->
           let w' :=
             set_symm_objs (<[s := (sm, pred n)]>)
               (set_ptr_to_block (delete p) w) in
           free env p w = Ret tt w'
           /\ trace w' = trace w
           /\ mapped (trace w') p = mapped (trace w) p
           /\ get_alloc_size p w' = Throw (NotAllocated "get_alloc_size") w')
        /\ ((n <= 1)%nat ->
              free env p w
              = CUDASymmetricMemory_dtor (free_dtor env) sm
                  (set_symm_objs (delete s) (set_ptr_to_block (delete p) w)))).
Proof.
  split; [|split].
  - intros [Hb|Hf]; unfold free, bind, get_world.
    + rewrite Hb. reflexivity.
    + destruct (find_block w p); [rewrite Hf|]; reflexivity.
  - intros b Hb Hs Hf Hu Hr w'.
    assert (Hfree : free env p w = Ret tt w').
    { unfold free, bind, get_world. rewrite Hb, Hf, Hs, Hu, Hr. reflexivity. }
    split; [exact Hfree|]. split.
    + subst w'. cbn [trace set_ptr_to_block log]. rewrite <- app_assoc.
      rewrite mapped_app. cbn [fold_left app mapped_step].
      rewrite Z.eqb_refl. reflexivity.
    + apply get_alloc_size_unknown. subst w'. unfold find_block.
      cbn [ptr_to_block_ set_ptr_to_block]. apply lookup_delete_eq.
  - intros b s sm n Hb Hs Hf Ho. split.
    + intros Hn w'.
      assert (Hfree : free env p w = Ret tt w').
      { unfold free, bind, get_world. rewrite Hb, Hf, Hs.
        unfold release_ref, bind, get_world, modify, ret.
        cbn [symm_objs set_ptr_to_block]. rewrite Ho.
        destruct (n <=? 1)%nat eqn:E; [apply Nat.leb_le in E; lia|].
        reflexivity. }
      split; [exact Hfree|]. split; [reflexivity|]. split; [reflexivity|].
      apply get_alloc_size_unknown. subst w'. unfold find_block.
      cbn [ptr_to_block_ set_ptr_to_block set_symm_objs]. apply lookup_delete_eq.
    + intros Hn. unfold free, bind, get_world. rewrite Hb, Hf, Hs.
      unfold release_ref, bind, get_world, modify, ret.
      cbn [symm_objs set_ptr_to_block]. rewrite Ho.
      destruct (n <=? 1)%nat eqn:E; [|apply Nat.leb_gt in E; lia].
      reflexivity.
Qed.

Lemma free_behaviour_witness :
  free ok_free 5 initial_world = Ret tt initial_world
  /\ (exists w',
        free ok_free 4096 (world_after [OpAlloc (ok_alloc 4096 7) 4096 0 "g"])
        = Ret tt w'
        /\ mapped (trace w') 4096 = false
        /\ get_alloc_size 4096 w' = Throw (NotAllocated "get_alloc_size") w')
  /\ (exists w',
        free ok_free 4096
          (world_after [OpAlloc (ok_alloc 4096 7) 4096 0 "g";
                        OpRendezvous solo_rendezvous 4096])
        = Ret tt w'
        /\ mapped (trace w') 4096 = true).
Proof.
  split; [|split].
  - apply (proj1 (free_behaviour ok_free 5 initial_world)). left. reflexivity.
  - destruct (proj1 (proj2 (free_behaviour ok_free 4096
                (world_after [OpAlloc (ok_alloc 4096 7) 4096 0 "g"])))
                (mkBlock 7 0 2097152 4096 4096 "g" None))
      as (H1 & H2 & H3); try reflexivity.
    eexists. split; [exact H1|]. split; [exact H2 | exact H3].
  - set (w := world_after [OpAlloc (ok_alloc 4096 7) 4096 0 "g";
                           OpRendezvous solo_rendezvous 4096]).
    assert (Ho : exists sm, symm_objs w !! 0%nat = Some (sm, 2%nat))
      by (eexists; vm_compute; reflexivity).
    destruct Ho as [sm Ho].
    destruct (proj1 (proj2 (proj2 (free_behaviour ok_free 4096 w))
                (mkBlock 7 0 2097152 4096 4096 "g" (Some 0%nat)) 0%nat sm 2%nat
                ltac:(vm_compute; reflexivity) eq_refl eq_refl Ho)
                ltac:(lia)) as (H1 & H2 & H3 & _).
    eexists. split; [exact H1|]. rewrite H3. vm_compute. reflexivity.
Defined.

(** ** [validate_rendezvous_requests] *)

Lemma size_device_set (l : list Z) :
  (size (list_to_set l : gset Z) <= length l)%nat
  /\ (size (list_to_set l : gset Z) = length l <-> NoDup l).
Proof.
  induction l as [|x l [IHle IHeq]].
  - rewrite (size_list_to_set (C:=gset Z) []) by constructor.
    split; [reflexivity|]. split; [constructor | reflexivity].
  - change (list_to_set (x :: l) : gset Z) with ({[x]} ∪ list_to_set l : gset Z).
    cbn [length].
    destruct (decide (x ∈ l)) as [Hin|Hnin].
    + assert (Heq : ({[x]} ∪ list_to_set l : gset Z) = list_to_set l).
      { apply set_eq. intros y. rewrite elem_of_union, elem_of_singleton,
          elem_of_list_to_set. split; [intros [->|?]; assumption | auto]. }
      rewrite Heq. split; [lia|]. split; [lia|].
      intros Hnd. apply NoDup_cons in Hnd as [Hx _]. contradiction.
    + rewrite size_union by (apply disjoint_singleton_l;
                             rewrite elem_of_list_to_set; exact Hnin).
      rewrite size_singleton. split; [lia|]. rewrite NoDup_cons. split.
      * intros H. split; [exact Hnin|]. apply IHeq. lia.
      * intros [_ Hnd]. apply IHeq in Hnd. lia.
Qed.

Lemma check_same_sizes_spec reqs r0 rs :
  head reqs = Some r0 ->
  Forall (fun r => 0 <= r < Z.of_nat (length reqs)) rs ->
  (check_same_sizes reqs rs = Ok tt
   <-> Forall (fun r => forall q, reqs !! Z.to_nat r = Some q -> same_sizes q r0) rs)
  /\ (check_same_sizes reqs rs = Ok tt \/ exists e, check_same_sizes reqs rs = Err e).
Proof.
  intros Hh Hrs.
  assert (H0 : index reqs 0 = Ok r0).
  { destruct reqs as [|q reqs]; [discriminate|]. injection Hh as ->. reflexivity. }
  induction rs as [|r rs IH]; simpl.
  - split; [split; [constructor | reflexivity] | left; reflexivity].
  - inversion Hrs as [|? ? Hr Hrs']; subst.
    destruct (IH Hrs') as [IHiff IHdef].
    destruct (index_in_range reqs r Hr) as (q & Hq & Hlk).
    rewrite Hq, H0. cbn [result_bind]. unfold torch_check.
    destruct (req_block_size q =? req_block_size r0) eqn:E1; cbn [result_bind].
    2:{ apply Z.eqb_neq in E1. split; [|right; eauto]. split; [discriminate|].
        intros HF. inversion HF as [|? ? Hx _]; subst.
        destruct (Hx q Hlk) as (? & _). contradiction. }
    destruct (req_buffer_size q =? req_buffer_size r0) eqn:E2; cbn [result_bind].
    2:{ apply Z.eqb_neq in E2. split; [|right; eauto]. split; [discriminate|].
        intros HF. inversion HF as [|? ? Hx _]; subst.
        destruct (Hx q Hlk) as (_ & ? & _). contradiction. }
    destruct (req_signal_pad_offset q =? req_signal_pad_offset r0) eqn:E3;
      cbn [result_bind].
    2:{ apply Z.eqb_neq in E3. split; [|right; eauto]. split; [discriminate|].
        intros HF. inversion HF as [|? ? Hx _]; subst.
        destruct (Hx q Hlk) as (_ & _ & ?). contradiction. }
    apply Z.eqb_eq in E1, E2, E3.
    split; [|exact IHdef]. rewrite IHiff. split.
    + intros HF. constructor; [|exact HF].
      intros q' Hq'. rewrite Hlk in Hq'. injection Hq' as <-.
      repeat split; assumption.
    + intros HF. inversion HF; assumption.
Qed.

Lemma to_size_t_int W :
  int_min <= W <= int_max ->
  (0 <= W /\ to_size_t W = W) \/ (W < 0 /\ 2 ^ 63 <= to_size_t W).
Proof.
  unfold int_min, int_max, to_size_t, wrap_size_t, size_t_modulus. intros HW.
  destruct (Z_lt_le_dec W 0).
  - right. split; [assumption|].
    rewrite <- (Z.mod_unique_pos W (2 ^ 64) (-1) (2 ^ 64 + W)); lia.
  - left. split; [assumption|]. apply Z.mod_small. lia.
Qed.

(** What the validation decides: it passes exactly on consistent requests
    and fails, with an exception, on all others. *)
Lemma validate_rendezvous_requests_spec reqs W :
  int_min <= W <= int_max -> Z.of_nat (length reqs) < 2 ^ 63 ->
  (validate_rendezvous_requests reqs W = Ok tt <-> requests_consistent reqs W)
  /\ (validate_rendezvous_requests reqs W = Ok tt
      \/ exists e, validate_rendezvous_requests reqs W = Err e).
Proof.
  intros HW Hlen. unfold validate_rendezvous_requests, requests_consistent.
  unfold torch_check.
  destruct (Z.of_nat (length reqs) =? to_size_t W) eqn:E1; cbn [result_bind].
  2:{ apply Z.eqb_neq in E1. split; [|right; eauto]. split; [discriminate|].
      intros (Hl & _). destruct (to_size_t_int W HW) as [[_ Hw]|[Hneg _]]; lia. }
  apply Z.eqb_eq in E1.
  destruct (to_size_t_int W HW) as [[HW0 Hw]|[_ Hbig]]; [|lia].
  rewrite Hw in *.
  destruct (size_device_set (req_device_idx <$> reqs)) as [Hle Heq].
  rewrite length_fmap in Hle, Heq.
  destruct (Z.of_nat (size (list_to_set (req_device_idx <$> reqs) : gset Z)) <? W)
    eqn:E2.
  { apply Z.ltb_lt in E2. split; [|right; eauto]. split; [discriminate|].
    intros (_ & Hnd & _). apply Heq in Hnd. lia. }
  apply Z.ltb_ge in E2.
  assert (Hnd : NoDup (req_device_idx <$> reqs)) by (apply Heq; lia).
  destruct reqs as [|r0 reqs'] eqn:Hreqs.
  { simpl in E1. subst W. simpl. split; [|left; reflexivity].
    split; [|reflexivity]. intros _. split; [reflexivity|].
    split; [constructor|]. intros ? ? Hh. discriminate. }
  rewrite <- Hreqs in *.
  assert (Hh : head reqs = Some r0) by (rewrite Hreqs; reflexivity).
  assert (Hrs : Forall (fun r => 0 <= r < Z.of_nat (length reqs)) (seqZ 1 (W - 1))).
  { apply Forall_seqZ. intros j Hj. lia. }
  destruct (check_same_sizes_spec reqs r0 (seqZ 1 (W - 1)) Hh Hrs) as [Hiff Hdef].
  split; [|exact Hdef]. rewrite Hiff. split.
  - intros HF. split; [exact E1|]. split; [exact Hnd|].
    intros r0' r Hh' Hr. rewrite Hh in Hh'. injection Hh' as <-.
    apply list_elem_of_lookup in Hr as [i Hi].
    destruct i as [|i].
    + rewrite Hreqs in Hi. simpl in Hi. injection Hi as <-. repeat split.
    + rewrite Forall_forall in HF. apply (HF (Z.of_nat (S i))).
      * apply elem_of_seqZ. apply lookup_lt_Some in Hi. lia.
      * rewrite Nat2Z.id. exact Hi.
  - intros (_ & _ & Hall). apply Forall_forall. intros r Hr q Hq.
    apply (Hall r0 q Hh). apply list_elem_of_lookup. eauto.
Qed.

(** ** The store traffic of a round stays on the store *)

Lemma extends_by_refl p w : extends_by p (trace w) w.
Proof. exists []. rewrite app_nil_r. split; reflexivity. Qed.

Lemma extends_by_log p t0 e w :
  p e = true -> extends_by p t0 w -> extends_by p t0 (log e w).
Proof.
  intros He (evs & Ht & Hall). exists (evs ++ [e]). cbn [trace log].
  rewrite Ht, app_assoc. split; [reflexivity|].
  rewrite forallb_app, Hall. simpl. rewrite He. reflexivity.
Qed.

Lemma extends_by_weaken (p q : Event -> bool) t0 w :
  (forall e, p e = true -> q e = true) -> extends_by p t0 w -> extends_by q t0 w.
Proof.
  intros Hpq (evs & Ht & Hall). exists evs. split; [exact Ht|].
  rewrite forallb_forall in *. intros e He. apply Hpq, Hall, He.
Qed.

Lemma store_all_gather_store_only {T} sz (tp : T -> Payload) replies rank W val t0 :
  preserves (extends_by is_store_event t0)
    (store_all_gather sz tp replies rank W val).
Proof.
  unfold store_all_gather.
  preserves_auto
    ltac:(idtac;
          first [ intros w Hw; apply extends_by_log; [reflexivity | exact Hw]
                | intros w Hw; exact Hw ]).
Qed.

Lemma preserves_returned {A} I (m : M A) w a w' :
  preserves I m -> I w -> m w = Ret a w' -> I w'.
Proof. intros Hm Iw Hr. specialize (Hm w Iw). rewrite Hr in Hm. exact Hm. Qed.

Lemma rendezvous_exchange env p w b :
  find_block w p = Some b -> symm_mem b = None -> export_res env = 0 ->
  rendezvous env p w =
  let group_info := get_group_info env (group_name b) in
  let rank := gi_rank group_info in
  let world_size := gi_world_size group_info in
  bind
    (store_all_gather sizeof_RendezvousRequest PayloadRequest
       (gather_replies env) rank world_size
       (mkRequest (device_idx b) (export_fd env) (getpid env)
          (block_size b) (buffer_size b) (signal_pad_offset b)))
    (fun reqs =>
       call lift (validate_rendezvous_requests reqs world_size);
       let n := Z.to_nat world_size in
       do m <- for_each (import_peer env b p rank reqs) (seqZ 0 world_size)
                 (mkMappings (replicate n 0) (replicate n 0) (replicate n 0));
       call store_barrier (barrier_replies env) rank world_size;
       call emit (Close (export_fd env));
       do sm <- CUDASymmetricMemory_ctor (ctor_env env)
                  (m_handles m) (block_size b) (m_buffers m)
                  (m_signal_pads m) (buffer_size b) (device_idx b)
                  rank world_size;
       do w' <- get_world;
       let s := next_obj w' in
       call modify (set_next_obj (S s));
       call modify (set_symm_objs (<[s := (sm, 2%nat)]>));
       call modify (set_ptr_to_block
                      (alter (fun b => set_symm_mem b (Some s)) p));
       ret s)
    (log (CuMemExportToShareableHandle (handle b) (export_fd env)
            (export_res env)) w).
Proof.
  intros Hb Hs Hres. unfold rendezvous.
  unfold bind at 1. unfold get_world. rewrite Hb, Hs. cbv zeta.
  unfold bind at 1. unfold emit at 1. unfold modify at 1.
  unfold bind at 1. unfold driver_check. rewrite Hres. reflexivity.
Qed.

(** C4. The validation passes exactly when the request count is the world
    size, the device indices are pairwise distinct and every request has
    the block size, buffer size and signal-pad offset of the first; on all
    other request vectors, among them those with two different buffer
    sizes, it fails with an exception.  When it fails on the requests
    [rendezvous] gathered, [rendezvous] fails with that exception in the
    world the gather left: since the call began nothing was imported or
    mapped, and the Block is as it was. *)
Theorem rendezvous_validation :
  (forall reqs W,
     int_min <= W <= int_max -> Z.of_nat (length reqs) < 2 ^ 63 ->
     (validate_rendezvous_requests reqs W = Ok tt <-> requests_consistent reqs W)
     /\ (~ requests_consistent reqs W ->
         exists e, validate_rendezvous_requests reqs W = Err e)
     /\ (forall r0 r,
           head reqs = Some r0 -> r ∈ reqs ->
           req_buffer_size r <> req_buffer_size r0 ->
           exists e, validate_rendezvous_requests reqs W = Err e))
  /\ (forall env p w b reqs w1 e,
        find_block w p = Some b -> symm_mem b = None -> export_res env = 0 ->
        let group_info := get_group_info env (group_name b) in
        store_all_gather sizeof_RendezvousRequest PayloadRequest
          (gather_replies env) (gi_rank group_info) (gi_world_size group_info)
          (mkRequest (device_idx b) (export_fd env) (getpid env)
             (block_size b) (buffer_size b) (signal_pad_offset b))
          (log (CuMemExportToShareableHandle (handle b) (export_fd env)
                  (export_res env)) w)
        = Ret reqs w1 ->
        validate_rendezvous_requests reqs (gi_world_size group_info) = Err e ->
        rendezvous env p w = Throw e w1
        /\ extends_by (fun ev => negb (is_import_or_map ev)) (trace w) w1
        /\ find_block w1 p = Some b).
Proof.
  split.
  - intros reqs W HW Hlen.
    destruct (validate_rendezvous_requests_spec reqs W HW Hlen) as [Hiff Hdef].
    assert (Hfail : ~ requests_consistent reqs W ->
                    exists e, validate_rendezvous_requests reqs W = Err e).
    { intros Hn. destruct Hdef as [Hok|He]; [|exact He].
      apply Hiff in Hok. contradiction. }
    split; [exact Hiff|]. split; [exact Hfail|].
    intros r0 r Hh Hr Hne. apply Hfail. intros (_ & _ & Hall).
    destruct (Hall r0 r Hh Hr) as (_ & Heq & _). contradiction.
  - intros env p w b reqs w1 e Hb Hs Hres gi Hg Hv.
    split; [|split].
    + rewrite (rendezvous_exchange env p w b Hb Hs Hres). cbv zeta.
      fold gi. unfold bind at 1. rewrite Hg. unfold bind at 1. rewrite Hv.
      reflexivity.
    + set (ev := CuMemExportToShareableHandle (handle b) (export_fd env)
                   (export_res env)) in *.
      pose proof (preserves_returned _ _ _ _ _
                    (store_all_gather_store_only _ _ _ _ _ _ (trace (log ev w)))
                    (extends_by_refl _ _) Hg) as (evs & Ht & Hall).
      exists (ev :: evs). cbn [trace log] in Ht. rewrite <- app_assoc in Ht.
      split; [exact Ht|]. cbn [forallb]. simpl.
      rewrite forallb_forall in *. intros x Hx. specialize (Hall x Hx).
      destruct x; try discriminate; reflexivity.
    + pose proof (preserves_returned _ _
                    (log (CuMemExportToShareableHandle (handle b) (export_fd env)
                            (export_res env)) w) _ _
                    (store_all_gather_frame _ (registry_only_eq (ptr_to_block_ w))
                       _ _ _ _ _ _) eq_refl Hg) as Hreg.
      unfold find_block in *. rewrite Hreg. exact Hb.
Qed.

Lemma rendezvous_validation_witness :
  (exists e,
     validate_rendezvous_requests
       [mkRequest 0 3 1000 2097152 4096 4096;
        mkRequest 1 5 2000 2097152 8192 4096] 2 = Err e)
  /\ exists w1,
    rendezvous (pair_rendezvous (mkRequest 1 5 2000 2097152 8192 4096)) 4096
      (world_after [OpAlloc (ok_alloc 4096 7) 4096 0 "g"])
    = Throw (CheckFailed "reqs[r].buffer_size == reqs[0].buffer_size") w1
    /\ extends_by (fun ev => negb (is_import_or_map ev))
         (trace (world_after [OpAlloc (ok_alloc 4096 7) 4096 0 "g"])) w1.
Proof.
  split.
  { refine (proj2 (proj2 (proj1 rendezvous_validation
              [mkRequest 0 3 1000 2097152 4096 4096;
               mkRequest 1 5 2000 2097152 8192 4096] 2 _ _))
              (mkRequest 0 3 1000 2097152 4096 4096)
              (mkRequest 1 5 2000 2097152 8192 4096) eq_refl _ _).
    - vm_compute. split; discriminate.
    - vm_compute. reflexivity.
    - apply list_elem_of_lookup. exists 1%nat. reflexivity.
    - simpl. discriminate. }
  set (w := world_after [OpAlloc (ok_alloc 4096 7) 4096 0 "g"]).
  set (env := pair_rendezvous (mkRequest 1 5 2000 2097152 8192 4096)).
  set (b := mkBlock 7 0 2097152 4096 4096 "g" None).
  assert (Hb : find_block w 4096 = Some b) by (vm_compute; reflexivity).
  assert (Hg : exists reqs w1,
            store_all_gather sizeof_RendezvousRequest PayloadRequest
              (gather_replies env)
              (gi_rank (get_group_info env (group_name b)))
              (gi_world_size (get_group_info env (group_name b)))
              (mkRequest (device_idx b) (export_fd env) (getpid env)
                 (block_size b) (buffer_size b) (signal_pad_offset b))
              (log (CuMemExportToShareableHandle (handle b) (export_fd env)
                      (export_res env)) w)
            = Ret reqs w1
            /\ validate_rendezvous_requests reqs
                 (gi_world_size (get_group_info env (group_name b)))
               = Err (CheckFailed "reqs[r].buffer_size == reqs[0].buffer_size")).
  { eexists. eexists. split; vm_compute; reflexivity. }
  destruct Hg as (reqs & w1 & Hg & Hv).
  destruct (proj2 rendezvous_validation env 4096 w b reqs w1 _ Hb eq_refl eq_refl
              Hg Hv) as (H1 & H2 & _).
  exists w1. split; [exact H1 | exact H2].
Defined.

(** ** Store keys *)

Lemma no_slash_pretty_N_go x : forall s,
  no_slash s = true -> no_slash (pretty_N_go x s) = true.
Proof.
  induction (N.lt_wf_0 x) as [x _ IH]. intros s Hs.
  destruct (decide (0 < x)%N) as [Hx|Hx].
  - rewrite pretty_N_go_step by exact Hx. apply IH.
    + apply N.div_lt; [exact Hx | reflexivity].
    + cbn [no_slash]. rewrite Hs, andb_true_r.
      unfold pretty_N_char. repeat case_match; reflexivity.
  - assert (x = 0%N) as -> by lia. rewrite pretty_N_go_0. exact Hs.
Qed.

Lemma no_slash_pretty_N (x : N) : no_slash (pretty x) = true.
Proof.
  unfold pretty, pretty_N. destruct (decide (x = 0%N)); [reflexivity|].
  apply no_slash_pretty_N_go. reflexivity.
Qed.

Lemma no_slash_pretty_Z (x : Z) : no_slash (pretty x) = true.
Proof.
  unfold pretty, pretty_Z. destruct x as [|q|q].
  - reflexivity.
  - apply (no_slash_pretty_N (Npos q)).
  - cbn [String.append no_slash]. apply (no_slash_pretty_N (Npos q)).
Qed.

(** A key splits at its first separator in one way only. *)
Lemma split_at_slash a : forall a' b b',
  no_slash a = true -> no_slash a' = true ->
  a +:+ String "/" b = a' +:+ String "/" b' -> a = a' /\ b = b'.
Proof.
  induction a as [|c a IH]; intros [|c' a'] b b' Ha Ha' Heq; simpl in *.
  - injection Heq as ->. split; reflexivity.
  - injection Heq as <- _. simpl in Ha'. discriminate.
  - injection Heq as -> _. simpl in Ha. discriminate.
  - injection Heq as -> Heq.
    apply andb_true_iff in Ha as [_ Ha]. apply andb_true_iff in Ha' as [_ Ha'].
    destruct (IH a' b b' Ha Ha' Heq) as [-> ->]. split; reflexivity.
Qed.

Lemma store_key_inj s r s' r' :
  store_key s r = store_key s' r' -> s = s' /\ r = r'.
Proof.
  unfold store_key, store_comm_prefix. intros Heq.
  cbn [String.append] in Heq.
  repeat (injection Heq as Heq).
  destruct (split_at_slash _ _ _ _ (no_slash_pretty_Z s) (no_slash_pretty_Z s') Heq)
    as [Hs Hr].
  split; [exact (pretty_Z_inj _ _ Hs) | exact (pretty_Z_inj _ _ Hr)].
Qed.

(** ** One all-gather round *)

Lemma index_fmap_seqZ {A} (f : Z -> A) W r :
  0 <= r < W -> index (f <$> seqZ 0 W) r = Ok (f r).
Proof.
  intros Hr. unfold index.
  destruct (0 <=? r) eqn:E; [|apply Z.leb_gt in E; lia].
  rewrite list_lookup_fmap, lookup_seqZ_lt by lia.
  simpl. rewrite Z2Nat.id by lia. reflexivity.
Qed.

Lemma log_all_nil w : log_all [] w = w.
Proof. destruct w. unfold log_all. simpl. rewrite app_nil_r. reflexivity. Qed.

Lemma log_all_app evs evs' w : log_all evs' (log_all evs w) = log_all (evs ++ evs') w.
Proof. unfold log_all. simpl. rewrite app_assoc. reflexivity. Qed.

Section RoundLoop.
Context {T : Type}.
Variables (sz : Z) (replies : Z -> StoreReply T) (rank W seq_id : Z) (val : T).
Hypothesis replies_sized :
  forall r, 0 <= r < W -> r <> rank -> reply_size (replies r) = sz.

Let peer_keys := store_key seq_id <$> seqZ 0 W.
Let body := fun (peer_vals : list T) (r : Z) =>
  if r =? rank then ret (peer_vals ++ [val])
  else
    do key <- lift (index peer_keys r);
    call emit (StoreWait key);
    call emit (StoreGet key);
    let payload := replies r in
    call lift (torch_check (reply_size payload =? sz)
                 (CheckFailed "payload.size() == sizeof(T)"));
    ret (peer_vals ++ [reply_val payload]).

Lemma round_loop rs : forall acc w,
  Forall (fun r => 0 <= r < W) rs ->
  for_each body rs acc w
  = Ret (acc ++ ((fun r => if r =? rank then val else reply_val (replies r)) <$> rs))
      (log_all (peer_events seq_id rank rs) w).
Proof.
  induction rs as [|r rs IH]; intros acc w Hrs.
  - simpl. unfold ret, peer_events. simpl. rewrite app_nil_r, log_all_nil.
    reflexivity.
  - inversion Hrs as [|? ? Hr Hrs']; subst.
    cbn [for_each]. unfold bind at 1. unfold body at 1.
    destruct (r =? rank) eqn:E.
    + unfold ret at 1. rewrite (IH _ _ Hrs').
      unfold peer_events. cbn [fmap list_fmap concat]. rewrite E.
      cbn [app]. rewrite <- app_assoc. reflexivity.
    + apply Z.eqb_neq in E.
      unfold peer_keys. rewrite (index_fmap_seqZ _ _ _ Hr).
      rewrite (replies_sized r Hr E), Z.eqb_refl.
      cbn [lift torch_check]. unfold bind, emit, modify, ret.
      rewrite (IH _ _ Hrs').
      unfold peer_events. cbn [fmap list_fmap concat].
      destruct (r =? rank) eqn:E'; [apply Z.eqb_eq in E'; contradiction|].
      rewrite <- app_assoc. f_equal.
      unfold log_all, log. simpl. rewrite <- !app_assoc. reflexivity.
Qed.
End RoundLoop.

(** A round whose replies have the size of [T]: the gathered values, the
    counter and the trace it leaves. *)
Lemma store_all_gather_round {T} sz (tp : T -> Payload) replies rank W val w :
  0 <= rank < W ->
  (forall r, 0 <= r < W -> r <> rank -> reply_size (replies r) = sz) ->
  store_all_gather sz tp replies rank W val w
  = Ret (round_values replies rank W val)
      (log_all (round_events (store_comm_seq_id w) rank W (tp val))
         (set_seq_id (wrap_size_t (store_comm_seq_id w + 1)) w)).
Proof.
  intros Hrank Hsz. unfold store_all_gather.
  unfold bind at 1. unfold get_world. cbv zeta.
  unfold bind at 1. unfold modify at 1.
  unfold bind at 1. rewrite (index_fmap_seqZ _ _ _ Hrank). cbn [lift]. unfold ret at 1.
  unfold bind at 1. unfold emit at 1, modify at 1.
  rewrite (round_loop sz replies rank W (store_comm_seq_id w) val Hsz).
  - unfold round_values, round_events, peer_events. cbn [app]. f_equal.
    unfold log_all, log, set_seq_id. simpl. rewrite <- app_assoc. reflexivity.
  - apply Forall_seqZ. intros j Hj. lia.
Qed.

Lemma seq_after_wrap k s :
  0 <= s < size_t_modulus -> seq_after k s = wrap_size_t (s + Z.of_nat k).
Proof.
  intros Hs. induction k as [|k IH].
  - simpl. rewrite Z.add_0_r, wrap_size_t_small; [reflexivity | exact Hs].
  - unfold seq_after in *. rewrite Nat.iter_succ, IH.
    unfold wrap_size_t, size_t_modulus. rewrite Z.add_mod_idemp_l by lia.
    f_equal. lia.
Qed.

Lemma seq_after_fresh k s :
  0 <= s < size_t_modulus -> (0 < k)%nat -> Z.of_nat k < size_t_modulus ->
  seq_after k s <> s.
Proof.
  intros Hs Hk Hk'. rewrite seq_after_wrap by exact Hs.
  unfold wrap_size_t, size_t_modulus in *. intros Heq.
  destruct (Z_lt_le_dec (s + Z.of_nat k) (2 ^ 64)).
  - rewrite Z.mod_small in Heq by lia. lia.
  - rewrite <- (Z.mod_unique_pos (s + Z.of_nat k) (2 ^ 64) 1
                  (s + Z.of_nat k - 2 ^ 64)) in Heq by lia.
    lia.
Qed.

(** C9. A round run by [rank] in a group of [W] whose peers answer with
    payloads of the right size sets the key
    ["CUDASymmetricMemory/<seq>/<rank>"] first and then waits for and reads
    the key of every other rank, in rank order, [<seq>] being the counter
    at the start of the round; the round adds one to the counter; a barrier
    is such a round.  Keys are equal only for equal counters and equal
    ranks, and the counter a later round starts with (fewer than [2^64]
    rounds later, the counter being a [size_t]) differs, so two rounds
    never share a key. *)
Theorem store_key_discipline :
  (forall (T : Type) sz (tp : T -> Payload) replies rank W val w,
     0 <= rank < W ->
     (forall r, 0 <= r < W -> r <> rank -> reply_size (replies r) = sz) ->
     exists w',
       store_all_gather sz tp replies rank W val w
       = Ret (round_values replies rank W val) w'
       /\ store_comm_seq_id w' = wrap_size_t (store_comm_seq_id w + 1)
       /\ trace w'
          = trace w ++ round_events (store_comm_seq_id w) rank W (tp val))
  /\ (forall replies rank W w,
        0 <= rank < W ->
        (forall r, 0 <= r < W -> r <> rank ->
           reply_size (replies r) = sizeof_int) ->
        exists w',
          store_barrier replies rank W w = Ret tt w'
          /\ store_comm_seq_id w' = wrap_size_t (store_comm_seq_id w + 1)
          /\ trace w'
             = trace w ++ round_events (store_comm_seq_id w) rank W (PayloadInt 0))
  /\ (forall s r s' r', store_key s r = store_key s' r' -> s = s' /\ r = r')
  /\ (forall s k r r',
        0 <= s < size_t_modulus -> (0 < k)%nat -> Z.of_nat k < size_t_modulus ->
        store_key (seq_after k s) r <> store_key s r').
Proof.
  split; [|split; [|split]].
  - intros T sz tp replies rank W val w Hrank Hsz.
    eexists. split; [apply store_all_gather_round; assumption|].
    split; reflexivity.
  - intros replies rank W w Hrank Hsz.
    eexists. split.
    + unfold store_barrier, bind.
      rewrite (store_all_gather_round _ _ _ _ _ _ _ Hrank Hsz). reflexivity.
    + split; reflexivity.
  - apply store_key_inj.
  - intros s k r r' Hs Hk Hk' Heq.
    apply store_key_inj in Heq as [Heq _].
    exact (seq_after_fresh k s Hs Hk Hk' Heq).
Qed.

Lemma store_key_discipline_witness :
  (exists w',
     store_barrier (fun _ => mkReply sizeof_int 0) 1 3 initial_world = Ret tt w'
     /\ store_comm_seq_id w' = wrap_size_t (0 + 1)
     /\ trace w' = [] ++ round_events 0 1 3 (PayloadInt 0))
  /\ store_key (seq_after 2 5) 0 <> store_key 5 0.
Proof.
  split.
  - apply (proj1 (proj2 store_key_discipline) (fun _ => mkReply sizeof_int 0)
             1 3 initial_world).
    + lia.
    + intros. reflexivity.
  - apply (proj2 (proj2 (proj2 store_key_discipline)) 5 2%nat 0 0).
    + vm_compute. split; [discriminate | reflexivity].
    + lia.
    + vm_compute. reflexivity.
Defined.

(** * Further properties of the translation unit *)

(** ** The channel check, in general *)

(** X1. For every world size from 1 up and every [int] channel,
    [check_channel] accepts exactly the channels [0 <= c < 512 * world_size];
    a negative channel is refused with the "must be greater than 0" error
    and a channel from [512 * world_size] up with the "maximum supported
    channel" error, which reports [512 * world_size - 1]. *)
Theorem check_channel_range c W :
  1 <= W <= int_max -> int_min <= c <= int_max ->
  (0 <= c < 512 * W -> check_channel c W = Ok tt)
  /\ (c < 0 -> check_channel c W = Err (ChannelNegative c))
  /\ (512 * W <= c ->
      check_channel c W = Err (ChannelTooLarge (512 * W - 1) c)).
Proof.
  intros HW Hc. unfold check_channel, torch_check, to_size_t.
  unfold int_min, int_max in *.
  change (signal_pad_size / sizeof_uint32_t) with 512.
  rewrite (wrap_size_t_small W) by (unfold size_t_modulus; lia).
  rewrite (wrap_size_t_small (512 * W)) by (unfold size_t_modulus; lia).
  rewrite (wrap_size_t_small (512 * W - 1)) by (unfold size_t_modulus; lia).
  split; [|split]; intros H.
  - destruct (0 <=? c) eqn:E0; [|apply Z.leb_gt in E0; lia]. cbn [result_bind].
    rewrite (wrap_size_t_small c) by (unfold size_t_modulus; lia).
    destruct (c <? 512 * W) eqn:E1; [reflexivity | apply Z.ltb_ge in E1; lia].
  - destruct (0 <=? c) eqn:E0; [apply Z.leb_le in E0; lia | reflexivity].
  - destruct (0 <=? c) eqn:E0; [|apply Z.leb_gt in E0; lia]. cbn [result_bind].
    rewrite (wrap_size_t_small c) by (unfold size_t_modulus; lia).
    destruct (c <? 512 * W) eqn:E1; [apply Z.ltb_lt in E1; lia | reflexivity].
Qed.

Lemma check_channel_range_witness :
  check_channel 4095 8 = Ok tt
  /\ check_channel (-3) 8 = Err (ChannelNegative (-3))
  /\ check_channel 4096 8 = Err (ChannelTooLarge (512 * 8 - 1) 4096).
Proof.
  assert (HW : 1 <= 8 <= int_max) by (vm_compute; split; discriminate).
  assert (Hc : forall c, -5 <= c <= 5000 -> int_min <= c <= int_max)
    by (unfold int_min, int_max; lia).
  split; [|split].
  - apply (proj1 (check_channel_range 4095 8 HW (Hc 4095 ltac:(lia)))). lia.
  - apply (proj1 (proj2 (check_channel_range (-3) 8 HW (Hc (-3) ltac:(lia))))). lia.
  - apply (proj2 (proj2 (check_channel_range 4096 8 HW (Hc 4096 ltac:(lia))))). lia.
Defined.

(** ** Layout of the signal slots *)

(** X2. The word the kernels address for rank [r] on channel [c],
    [pad + world_size * c + r] on [uint32_t] pointers, determines [(c, r)]:
    for ranks below the world size, two different (channel, rank) pairs
    address words that do not overlap.  The word lies inside the
    [signal_pad_size] bytes of the pad exactly when
    [world_size * c + r < 512]. *)
Theorem signal_slots_disjoint pad W c r c' r' :
  0 <= r < W -> 0 <= r' < W -> 0 <= c -> 0 <= c' ->
  let a := ptr_add (ptr_add pad (W * c)) r in
  let a' := ptr_add (ptr_add pad (W * c')) r' in
  ((c, r) <> (c', r') -> a + 4 <= a' \/ a' + 4 <= a)
  /\ (pad <= a /\ a + 4 <= pad + signal_pad_size <-> W * c + r < 512).
Proof.
  intros Hr Hr' Hc Hc' a a'. subst a a'.
  unfold ptr_add, sizeof_uint32_t, signal_pad_size. split.
  - intros Hne.
    destruct (Z.eq_dec c c') as [->|Hcc].
    + assert (r <> r') by congruence. lia.
    + assert (c < c' \/ c' < c) as [Hlt|Hlt] by lia; nia.
  - split; [lia | nia].
Qed.

Lemma signal_slots_disjoint_witness :
  (ptr_add (ptr_add 8192 (2 * 3)) 1 + 4 <= ptr_add (ptr_add 8192 (2 * 4)) 0
   \/ ptr_add (ptr_add 8192 (2 * 4)) 0 + 4 <= ptr_add (ptr_add 8192 (2 * 3)) 1)
  /\ (8192 <= ptr_add (ptr_add 8192 (2 * 3)) 1
      /\ ptr_add (ptr_add 8192 (2 * 3)) 1 + 4 <= 8192 + signal_pad_size
      <-> 2 * 3 + 1 < 512).
Proof.
  destruct (signal_slots_disjoint 8192 2 3 1 4 0) as [H1 H2]; try lia.
  split; [apply H1; congruence | exact H2].
Defined.

(** ** [get_buffer] reads the low 32 bits of a dimension *)

Lemma int64_to_int_congr a b :
  a mod 2 ^ 32 = b mod 2 ^ 32 -> int64_to_int a = int64_to_int b.
Proof.
  intros H. unfold int64_to_int.
  rewrite <- (Z.add_mod_idemp_l a), <- (Z.add_mod_idemp_l b) by lia.
  rewrite H. reflexivity.
Qed.

Lemma accumulate_multiplies_int_congr sizes sizes' :
  Forall2 (fun a b => a mod 2 ^ 32 = b mod 2 ^ 32) sizes sizes' ->
  forall acc,
    accumulate_multiplies_int sizes acc = accumulate_multiplies_int sizes' acc.
Proof.
  induction 1 as [|a b sizes sizes' Hab _ IH]; intros acc; simpl.
  - reflexivity.
  - rewrite (int64_to_int_congr a b Hab).
    destruct (int_mul acc (int64_to_int b)); simpl; auto.
Qed.

(** X3. The size check of [get_buffer] sees each dimension through its low
    32 bits only: two shapes whose dimensions agree modulo [2^32] are both
    refused with the same error, or both undefined, or both served from the
    same pointer.  A dimension that is a multiple of [2^32] counts as 0, so
    such a shape passes the check at offset 0 whatever the buffer size. *)
Theorem get_buffer_narrows_dimensions :
  (forall (ScalarType : Type) (elementSize : ScalarType -> Z) sm rank
          sizes sizes' dtype off,
     Forall2 (fun a b => a mod 2 ^ 32 = b mod 2 ^ 32) sizes sizes' ->
     match get_buffer ScalarType elementSize sm rank sizes dtype off,
           get_buffer ScalarType elementSize sm rank sizes' dtype off with
     | Ok t, Ok t' =>
         data_ptr t = data_ptr t' /\ tensor_sizes t = sizes
         /\ tensor_sizes t' = sizes'
     | Err e, Err e' => e = e'
     | UB, UB => True
     | _, _ => False
     end)
  /\ (forall (ScalarType : Type) (elementSize : ScalarType -> Z) sm rank
             k dtype p,
        0 <= buffer_size_ sm -> index (buffers_ sm) rank = Ok p ->
        get_buffer ScalarType elementSize sm rank [k * 2 ^ 32] dtype 0
        = Ok (mkTensor p [k * 2 ^ 32] 0 dtype (local_device_idx_ sm))).
Proof.
  split.
  - intros ST es sm rank sizes sizes' dtype off H. unfold get_buffer.
    rewrite (accumulate_multiplies_int_congr sizes sizes' H 1).
    destruct (accumulate_multiplies_int sizes' 1) as [n| |]; cbn [result_bind];
      try easy.
    destruct (int64_add n off) as [m| |]; cbn [result_bind]; try easy.
    destruct (torch_check _ _) as [[]| |]; cbn [result_bind]; try easy.
    destruct (index (buffers_ sm) rank) as [p| |]; cbn [result_bind]; easy.
  - intros ST es sm rank k dtype p Hbs Hp. unfold get_buffer.
    cbn [accumulate_multiplies_int].
    assert (H0 : int64_to_int (k * 2 ^ 32) = 0).
    { rewrite (int64_to_int_congr (k * 2 ^ 32) 0); [reflexivity|].
      rewrite Z.mod_mul by lia. reflexivity. }
    rewrite H0. change (int_mul 1 0) with (Ok (A:=Z) 0). cbn [result_bind].
    change (int64_add 0 0) with (Ok (A:=Z) 0). cbn [result_bind].
    change (to_size_t 0 * es dtype) with 0.
    change (wrap_size_t 0) with 0. unfold torch_check.
    destruct (0 <=? buffer_size_ sm) eqn:E; [|apply Z.leb_gt in E; lia].
    cbn [result_bind]. rewrite Hp. reflexivity.
Qed.

Lemma get_buffer_narrows_dimensions_witness :
  get_buffer unit (fun _ => 4) example_symm 1 [3 * 2 ^ 32] tt 0
  = Ok (mkTensor 8388608 [3 * 2 ^ 32] 0 tt 0).
Proof.
  apply (proj2 get_buffer_narrows_dimensions unit (fun _ => 4) example_symm 1 3
           tt 8388608).
  - vm_compute. discriminate.
  - reflexivity.
Defined.

(** ** [map_block] *)

Lemma mapped_log t e p : mapped (t ++ [e]) p = mapped_step p (mapped t p) e.
Proof. rewrite mapped_app. reflexivity. Qed.

(** X4. [map_block] reserves an address range, maps the handle there and
    grants the device access, in this order, and returns the reserved
    address; the first driver call that fails ends it with that status as
    the exception, and no later call is made.  After a failed reservation
    or a failed map nothing new is mapped; after a failed access grant the
    address stays mapped. *)
Theorem map_block_outcomes env hdl size device w :
  let p := reserve_ptr env in
  let reserve := CuMemAddressReserve size p (reserve_res env) in
  let map := CuMemMap p size hdl (map_res env) in
  let access := CuMemSetAccess p size device (set_access_res env) in
  (reserve_res env = 0 -> map_res env = 0 -> set_access_res env = 0 ->
     map_block env hdl size device w = Ret p (log_all [reserve; map; access] w)
     /\ mapped (trace (log_all [reserve; map; access] w)) p = true)
  /\ (reserve_res env <> 0 ->
      map_block env hdl size device w
      = Throw (DriverError (reserve_res env)) (log_all [reserve] w)
      /\ forall q, mapped (trace (log_all [reserve] w)) q = mapped (trace w) q)
  /\ (reserve_res env = 0 -> map_res env <> 0 ->
      map_block env hdl size device w
      = Throw (DriverError (map_res env)) (log_all [reserve; map] w)
      /\ forall q, mapped (trace (log_all [reserve; map] w)) q = mapped (trace w) q)
  /\ (reserve_res env = 0 -> map_res env = 0 -> set_access_res env <> 0 ->
      map_block env hdl size device w
      = Throw (DriverError (set_access_res env)) (log_all [reserve; map; access] w)
      /\ mapped (trace (log_all [reserve; map; access] w)) p = true).
Proof.
  intros p reserve map access. subst p reserve map access.
  assert (Hlog1 : forall e w0, log e w0 = log_all [e] w0) by reflexivity.
  assert (Hthrow : forall res, res <> 0 ->
            driver_check res = throw (DriverError res)).
  { intros res Hne. unfold driver_check.
    destruct (res =? 0) eqn:E; [apply Z.eqb_eq in E; contradiction | reflexivity]. }
  split; [|split; [|split]].
  - intros H1 H2 H3. split.
    + unfold map_block, bind, emit, modify, driver_check.
      rewrite H1, H2, H3. cbn [Z.eqb ret]. unfold ret.
      rewrite !Hlog1, !log_all_app. reflexivity.
    + cbn [trace log_all]. rewrite H1, H2, H3, mapped_app.
      cbn [fold_left mapped_step]. rewrite Z.eqb_refl. reflexivity.
  - intros H1. split.
    + unfold map_block. unfold bind at 1. unfold emit at 1, modify at 1.
      unfold bind at 1. rewrite (Hthrow _ H1). rewrite Hlog1. reflexivity.
    + intros q. cbn [trace log_all]. rewrite mapped_app. reflexivity.
  - intros H1 H2. split.
    + unfold map_block. unfold bind at 1. unfold emit at 1, modify at 1.
      unfold bind at 1. unfold driver_check at 1. rewrite H1. cbn [Z.eqb].
      unfold ret at 1. unfold bind at 1. unfold emit at 1, modify at 1.
      unfold bind at 1. rewrite (Hthrow _ H2).
      rewrite !Hlog1, !log_all_app. reflexivity.
    + intros q. cbn [trace log_all]. rewrite mapped_app.
      cbn [fold_left mapped_step].
      destruct (map_res env =? 0) eqn:E; [apply Z.eqb_eq in E; contradiction|].
      rewrite andb_false_r. reflexivity.
  - intros H1 H2 H3. split.
    + unfold map_block. unfold bind at 1. unfold emit at 1, modify at 1.
      unfold bind at 1. unfold driver_check at 1. rewrite H1. cbn [Z.eqb].
      unfold ret at 1. unfold bind at 1. unfold emit at 1, modify at 1.
      unfold bind at 1. unfold driver_check at 1. rewrite H2. cbn [Z.eqb].
      unfold ret at 1. unfold bind at 1. unfold emit at 1, modify at 1.
      unfold bind at 1. rewrite (Hthrow _ H3).
      rewrite !Hlog1, !log_all_app. reflexivity.
    + cbn [trace log_all]. rewrite H2, mapped_app.
      cbn [fold_left mapped_step]. rewrite Z.eqb_refl. reflexivity.
Qed.

Lemma map_block_outcomes_witness :
  map_block (ok_map 4096) 7 2097152 0 initial_world
  = Ret 4096
      (log_all [CuMemAddressReserve 2097152 4096 0; CuMemMap 4096 2097152 7 0;
                CuMemSetAccess 4096 2097152 0 0] initial_world)
  /\ map_block (mkMapEnv 4096 0 2 0) 7 2097152 0 initial_world
     = Throw (DriverError 2)
         (log_all [CuMemAddressReserve 2097152 4096 0; CuMemMap 4096 2097152 7 2]
            initial_world).
Proof.
  split.
  - apply (proj1 (map_block_outcomes (ok_map 4096) 7 2097152 0 initial_world));
      reflexivity.
  - apply (proj1 (proj2 (proj2 (map_block_outcomes (mkMapEnv 4096 0 2 0) 7
                                  2097152 0 initial_world))));
      [reflexivity | discriminate].
Defined.

(** ** [alloc] *)

(** X5. When the driver and the runtime report success (and a granularity
    that is not 0), [alloc] makes six calls: granularity query, handle
    creation for the rounded block size, the three calls of [map_block] and
    the zero-fill of the whole block; it returns the reserved address and
    registers the new Block under it, unless the address is already a key
    of the registry, whose entry is then kept.  An [alloc] that throws
    leaves the registry as it was. *)
Theorem alloc_outcomes env size device group w :
  let b := new_block env size device group in
  let p := reserve_ptr (alloc_map env) in
  (granularity_res env = 0 -> granularity env <> 0 -> create_res env = 0 ->
   reserve_res (alloc_map env) = 0 -> map_res (alloc_map env) = 0 ->
   set_access_res (alloc_map env) = 0 -> memset_res env = 0 ->
   alloc env size device group w =
   Ret p
     (set_ptr_to_block (emplace p b)
        (log_all
           [CuMemGetAllocationGranularity device (granularity env) 0;
            CuMemCreate (block_size b) device (create_handle env) 0;
            CuMemAddressReserve (block_size b) p 0;
            CuMemMap p (block_size b) (create_handle env) 0;
            CuMemSetAccess p (block_size b) device 0;
            CudaMemset p 0 (block_size b) 0] w)))
  /\ (forall e w', alloc env size device group w = Throw e w' ->
        ptr_to_block_ w' = ptr_to_block_ w)
  /\ (forall q w' c, alloc env size device group w = Ret q w' ->
        ptr_to_block_ w !! q = Some c -> ptr_to_block_ w' !! q = Some c).
Proof.
  intros b p. split; [|split].
  - intros H1 H2 H3 H4 H5 H6 H7. subst b p.
    unfold alloc, map_block, bind, emit, modify, driver_check, cuda_check.
    cbv zeta. rewrite H1, H3, H4, H5, H6, H7. cbn [Z.eqb].
    destruct (granularity env =? 0) eqn:E; [apply Z.eqb_eq in E; contradiction|].
    unfold ret. cbn [new_block block_size]. f_equal.
    unfold set_ptr_to_block, log_all, log. cbn. rewrite <- !app_assoc.
    reflexivity.
  - intros e w' Ha.
    pose proof (alloc_registry env size device group (ptr_to_block_ w) w eq_refl)
      as H. rewrite Ha in H. exact H.
  - intros q w' c Ha Hc.
    pose proof (alloc_registry env size device group (ptr_to_block_ w) w eq_refl)
      as H. rewrite Ha in H. destruct H as [_ ->].
    unfold emplace. rewrite Hc. exact Hc.
Qed.

Lemma alloc_outcomes_witness :
  alloc (ok_alloc 4096 7) 100 0 "g" initial_world =
  Ret 4096
    (set_ptr_to_block (emplace 4096 (new_block (ok_alloc 4096 7) 100 0 "g"))
       (log_all
          [CuMemGetAllocationGranularity 0 2097152 0;
           CuMemCreate 2097152 0 7 0;
           CuMemAddressReserve 2097152 4096 0;
           CuMemMap 4096 2097152 7 0;
           CuMemSetAccess 4096 2097152 0 0;
           CudaMemset 4096 0 2097152 0] initial_world)).
Proof.
  apply (proj1 (alloc_outcomes (ok_alloc 4096 7) 100 0 "g" initial_world));
    try reflexivity.
  vm_compute. discriminate.
Defined.

(** ** [free] when the driver fails *)

(** X6. On a Block that never went through [rendezvous], a failed unmap
    ends [free] with the driver status: the handle is not released and the
    Block stays registered.  When the unmap succeeds and the release fails,
    [free] throws as well and the Block stays registered although its
    address is no longer mapped. *)
Theorem free_driver_failure env p w b :
  find_block w p = Some b -> symm_mem b = None -> is_finalizing env = false ->
  (free_unmap_res env <> 0 ->
     let w' := log (CuMemUnmap p (block_size b) (free_unmap_res env)) w in
     free env p w = Throw (DriverError (free_unmap_res env)) w'
     /\ find_block w' p = Some b
     /\ mapped (trace w') p = mapped (trace w) p)
  /\ (free_unmap_res env = 0 -> free_release_res env <> 0 ->
        let w' := log (CuMemRelease (handle b) (free_release_res env))
                    (log (CuMemUnmap p (block_size b) 0) w) in
        free env p w = Throw (DriverError (free_release_res env)) w'
        /\ find_block w' p = Some b
        /\ mapped (trace w') p = false).
Proof.
  intros Hb Hs Hf. split.
  - intros Hu w'. split; [|split].
    + unfold free, bind, get_world, emit, modify, driver_check.
      rewrite Hb, Hf, Hs.
      destruct (free_unmap_res env =? 0) eqn:E;
        [apply Z.eqb_eq in E; contradiction | reflexivity].
    + exact Hb.
    + subst w'. cbn [trace log]. rewrite mapped_log. cbn [mapped_step].
      destruct (free_unmap_res env =? 0) eqn:E;
        [apply Z.eqb_eq in E; contradiction|].
      rewrite andb_false_r. reflexivity.
  - intros Hu Hr w'. split; [|split].
    + unfold free, bind, get_world, emit, modify, driver_check.
      rewrite Hb, Hf, Hs, Hu. cbn [Z.eqb]. unfold ret.
      destruct (free_release_res env =? 0) eqn:E;
        [apply Z.eqb_eq in E; contradiction | reflexivity].
    + exact Hb.
    + subst w'. cbn [trace log]. rewrite <- app_assoc, mapped_app.
      cbn [app fold_left mapped_step]. rewrite Z.eqb_refl. reflexivity.
Qed.

Lemma free_driver_failure_witness :
  exists w',
    free (mkFreeEnv false 0 700 ok_dtor) 4096
      (world_after [OpAlloc (ok_alloc 4096 7) 4096 0 "g"])
    = Throw (DriverError 700) w'
    /\ find_block w' 4096 = Some (mkBlock 7 0 2097152 4096 4096 "g" None)
    /\ mapped (trace w') 4096 = false.
Proof.
  eexists.
  apply (proj2 (free_driver_failure (mkFreeEnv false 0 700 ok_dtor) 4096
                  (world_after [OpAlloc (ok_alloc 4096 7) 4096 0 "g"])
                  (mkBlock 7 0 2097152 4096 4096 "g" None)
                  ltac:(vm_compute; reflexivity) eq_refl eq_refl));
    [reflexivity | discriminate].
Defined.

(** ** The registry over time *)

Lemma block_evolves_fields b b' :
  block_evolves b b' ->
  handle b' = handle b /\ device_idx b' = device_idx b
  /\ group_name b' = group_name b
  /\ (forall s, symm_mem b = Some s -> symm_mem b' = Some s).
Proof.
  intros [->|[Hn [s ->]]]; repeat split; auto.
  intros s' Hs'. congruence.
Qed.

(** X7. A registered Block stays registered through every sequence of
    operations that does not free its pointer: later allocations, frees of
    other pointers, rendezvous calls, released references and signal
    operations leave its handle, device, sizes, pad offset and group as
    they are, and a [CUDASymmetricMemory] stored on it is never replaced. *)
Theorem registered_block_is_stable ops w w' p b :
  ptr_to_block_ w !! p = Some b ->
  forallb (not_free_of p) ops = true ->
  exec_all ops w = Some w' ->
  exists b',
    ptr_to_block_ w' !! p = Some b'
    /\ handle b' = handle b /\ device_idx b' = device_idx b
    /\ block_size b' = block_size b /\ buffer_size b' = buffer_size b
    /\ signal_pad_offset b' = signal_pad_offset b
    /\ group_name b' = group_name b
    /\ (forall s, symm_mem b = Some s -> symm_mem b' = Some s).
Proof.
  intros Hb Hnf Hex.
  destruct (exec_all_keeps ops w w' p b Hex Hnf Hb) as (b' & Hb' & Hev).
  destruct (block_evolves_sizes _ _ Hev) as (E1 & E2 & E3).
  destruct (block_evolves_fields _ _ Hev) as (E4 & E5 & E6 & E7).
  exists b'. repeat split; assumption.
Qed.

Lemma registered_block_is_stable_witness :
  exists b',
    ptr_to_block_
      (world_after [OpAlloc (ok_alloc 4096 7) 100 0 "g";
                    OpAlloc (ok_alloc 4096 8) 64 1 "h";
                    OpFree ok_free 16;
                    OpRendezvous solo_rendezvous 4096]) !! 4096 = Some b'
    /\ handle b' = 7 /\ buffer_size b' = 100.
Proof.
  destruct (registered_block_is_stable
              [OpAlloc (ok_alloc 4096 8) 64 1 "h"; OpFree ok_free 16;
               OpRendezvous solo_rendezvous 4096]
              (world_after [OpAlloc (ok_alloc 4096 7) 100 0 "g"])
              (world_after [OpAlloc (ok_alloc 4096 7) 100 0 "g";
                            OpAlloc (ok_alloc 4096 8) 64 1 "h";
                            OpFree ok_free 16;
                            OpRendezvous solo_rendezvous 4096])
              4096 (new_block (ok_alloc 4096 7) 100 0 "g"))
    as (b' & H1 & H2 & _ & _ & H3 & _).
  - vm_compute. reflexivity.
  - reflexivity.
  - vm_compute. reflexivity.
  - exists b'. split; [exact H1|]. split; [exact H2 | exact H3].
Defined.

(** ** [is_rendezvous_completed] *)

Lemma is_rendezvous_completed_found p w b :
  find_block w p = Some b ->
  is_rendezvous_completed p w = Ret (bool_decide (symm_mem b <> None)) w.
Proof.
  intros Hb. unfold is_rendezvous_completed, bind, get_world. rewrite Hb.
  reflexivity.
Qed.

(** X8. [is_rendezvous_completed] fails on a pointer that is not
    registered; it answers [false] for a pointer [alloc] has just
    registered, and [true] once [rendezvous] on the pointer has returned,
    for as long as the pointer is not freed. *)
Theorem is_rendezvous_completed_lifecycle :
  (forall p w,
     find_block w p = None ->
     is_rendezvous_completed p w
     = Throw (NotAllocated "is_rendezvous_completed") w)
  /\ (forall env size device group w p w1,
        alloc env size device group w = Ret p w1 ->
        ptr_to_block_ w !! p = None ->
        is_rendezvous_completed p w1 = Ret false w1)
  /\ (forall env p w s w1 ops w2,
        rendezvous env p w = Ret s w1 ->
        forallb (not_free_of p) ops = true ->
        exec_all ops w1 = Some w2 ->
        is_rendezvous_completed p w2 = Ret true w2).
Proof.
  split; [|split].
  - intros p w Hb. unfold is_rendezvous_completed, bind, get_world.
    rewrite Hb. reflexivity.
  - intros env size device group w p w1 Ha Hfresh.
    rewrite (is_rendezvous_completed_found p w1 _
               (alloc_registers _ _ _ _ _ _ _ Ha Hfresh)).
    reflexivity.
  - intros env p w s w1 ops w2 Hr Hnf Hex.
    destruct (rendezvous_stores _ _ _ _ _ Hr) as (b & Hb & Hs).
    destruct (exec_all_keeps ops w1 w2 p b Hex Hnf Hb) as (b' & Hb' & Hev).
    rewrite (block_evolves_symm_mem _ _ _ Hs Hev) in Hb'.
    rewrite (is_rendezvous_completed_found p w2 b Hb'), Hs. reflexivity.
Qed.

Lemma is_rendezvous_completed_lifecycle_witness :
  is_rendezvous_completed 4096
    (world_after [OpAlloc (ok_alloc 4096 7) 100 0 "g"])
  = Ret false (world_after [OpAlloc (ok_alloc 4096 7) 100 0 "g"])
  /\ is_rendezvous_completed 4096
       (world_after [OpAlloc (ok_alloc 4096 7) 100 0 "g";
                     OpRendezvous solo_rendezvous 4096;
                     OpBarrier 0 0 5])
     = Ret true
         (world_after [OpAlloc (ok_alloc 4096 7) 100 0 "g";
                       OpRendezvous solo_rendezvous 4096;
                       OpBarrier 0 0 5]).
Proof.
  split.
  - refine (proj1 (proj2 is_rendezvous_completed_lifecycle) (ok_alloc 4096 7)
              100 0 "g" initial_world 4096 _ _ _).
    + vm_compute. reflexivity.
    + reflexivity.
  - refine (proj2 (proj2 is_rendezvous_completed_lifecycle) solo_rendezvous 4096
              (world_after [OpAlloc (ok_alloc 4096 7) 100 0 "g"]) 0%nat
              (world_after [OpAlloc (ok_alloc 4096 7) 100 0 "g";
                            OpRendezvous solo_rendezvous 4096])
              [OpBarrier 0 0 5] _ _ _ _).
    + vm_compute. reflexivity.
    + reflexivity.
    + vm_compute. reflexivity.
Defined.

(** ** A failed [rendezvous] *)

(** X9. A [rendezvous] that throws, whether on an unknown pointer, a failed
    driver call, a malformed payload or a failed validation, leaves the
    registry as it was: no Block is marked as rendezvoused, so
    [is_rendezvous_completed] answers as before and a later [rendezvous] on
    the pointer runs the exchange again. *)
Theorem rendezvous_failure_keeps_registry env p w e w' :
  rendezvous env p w = Throw e w' ->
  ptr_to_block_ w' = ptr_to_block_ w
  /\ (forall q, is_rendezvous_completed q w'
                = match is_rendezvous_completed q w with
                  | Ret a _ => Ret a w'
                  | Throw e' _ => Throw e' w'
                  | Undef => Undef
                  end).
Proof.
  intros Hr.
  pose proof (rendezvous_registry env p (ptr_to_block_ w) w eq_refl) as H.
  rewrite Hr in H. split; [exact H|].
  intros q. unfold is_rendezvous_completed, bind, get_world, find_block.
  rewrite H. destruct (ptr_to_block_ w !! q); reflexivity.
Qed.

Lemma rendezvous_failure_keeps_registry_witness :
  exists w',
    rendezvous (pair_rendezvous (mkRequest 0 5 2000 2097152 4096 4096)) 4096
      (world_after [OpAlloc (ok_alloc 4096 7) 4096 0 "g"])
    = Throw OverlappingDevices w'
    /\ ptr_to_block_ w'
       = ptr_to_block_ (world_after [OpAlloc (ok_alloc 4096 7) 4096 0 "g"]).
Proof.
  assert (H : exists w',
            rendezvous (pair_rendezvous (mkRequest 0 5 2000 2097152 4096 4096))
              4096 (world_after [OpAlloc (ok_alloc 4096 7) 4096 0 "g"])
            = Throw OverlappingDevices w')
    by (eexists; vm_compute; reflexivity).
  destruct H as [w' H]. exists w'. split; [exact H|].
  exact (proj1 (rendezvous_failure_keeps_registry _ _ _ _ _ H)).
Defined.

(** ** The sequence counter of a round, whatever its outcome *)

Lemma store_all_gather_counter {T} sz (tp : T -> Payload) replies rank W val w :
  match store_all_gather sz tp replies rank W val w with
  | Ret _ w' | Throw _ w' =>
      store_comm_seq_id w' = wrap_size_t (store_comm_seq_id w + 1)
  | Undef => True
  end.
Proof.
  unfold store_all_gather. unfold bind at 1. unfold get_world. cbv zeta.
  unfold bind at 1. unfold modify at 1.
  set (c := wrap_size_t (store_comm_seq_id w + 1)).
  set (Inv := fun w' : World => store_comm_seq_id w' = c).
  match goal with
  | |- match ?m ?w0 with _ => _ end =>
      assert (Hp : preserves Inv m);
      [| exact (Hp w0 eq_refl) ]
  end.
  preserves_auto ltac:(idtac; intros ? Hw; exact Hw).
Qed.

Lemma store_all_gather_outcome {T} sz (tp : T -> Payload) replies rank W val w :
  match store_all_gather sz tp replies rank W val w with
  | Ret _ w' | Throw _ w' =>
      store_comm_seq_id w' = wrap_size_t (store_comm_seq_id w + 1)
      /\ extends_by is_store_event (trace w) w'
  | Undef => True
  end.
Proof.
  pose proof (store_all_gather_counter sz tp replies rank W val w) as Hc.
  pose proof (store_all_gather_store_only sz tp replies rank W val (trace w) w
                (extends_by_refl _ w)) as Ht.
  destruct (store_all_gather sz tp replies rank W val w); auto.
Qed.

Lemma store_barrier_outcome replies rank W w :
  match store_barrier replies rank W w with
  | Ret _ w' | Throw _ w' =>
      store_comm_seq_id w' = wrap_size_t (store_comm_seq_id w + 1)
      /\ extends_by is_store_event (trace w) w'
  | Undef => True
  end.
Proof.
  unfold store_barrier, bind.
  pose proof (store_all_gather_outcome sizeof_int PayloadInt replies rank W 0 w)
    as H.
  destruct (store_all_gather sizeof_int PayloadInt replies rank W 0 w);
    cbn [ret]; exact H.
Qed.

(** X10. Every all-gather round that runs to an end, by returning or by
    throwing on a payload of the wrong size, has added exactly one to the
    sequence counter and has called nothing but the store; a barrier is
    such a round. *)
Theorem store_round_consumes_one_sequence_number :
  (forall (T : Type) sz (tp : T -> Payload) replies rank W val w,
     match store_all_gather sz tp replies rank W val w with
     | Ret _ w' | Throw _ w' =>
         store_comm_seq_id w' = wrap_size_t (store_comm_seq_id w + 1)
         /\ extends_by is_store_event (trace w) w'
     | Undef => True
     end)
  /\ (forall replies rank W w,
        match store_barrier replies rank W w with
        | Ret _ w' | Throw _ w' =>
            store_comm_seq_id w' = wrap_size_t (store_comm_seq_id w + 1)
            /\ extends_by is_store_event (trace w) w'
        | Undef => True
        end).
Proof.
  split.
  - intros T sz tp replies rank W val w. apply store_all_gather_outcome.
  - intros replies rank W w. apply store_barrier_outcome.
Qed.

(** ** The barrier kernel *)

Lemma run_threads_all body g tids :
  Forall (fun t => body t = Ok (g t)) tids ->
  run_threads body tids = Ok (concat (g <$> tids)).
Proof.
  induction 1 as [|t tids Ht _ IH]; simpl.
  - reflexivity.
  - rewrite Ht, IH. reflexivity.
Qed.

Lemma concat_all_nil {A B} (g : A -> list B) xs :
  Forall (fun x => g x = []) xs -> concat (g <$> xs) = [].
Proof.
  induction 1 as [|x xs Hx _ IH]; [reflexivity|].
  rewrite fmap_cons. cbn [concat]. rewrite Hx, IH. reflexivity.
Qed.

Lemma index_total (v : list Z) i :
  0 <= i < Z.of_nat (length v) -> index v i = Ok (v !!! Z.to_nat i).
Proof.
  intros Hi. destruct (index_in_range v i Hi) as (a & Ha & Hl).
  rewrite Ha. f_equal. symmetry. apply list_lookup_total_correct. exact Hl.
Qed.

(** X11. The barrier kernel of a rank runs one lane per rank of the group,
    up to the 32 threads of the launch: lane [t] releases slot
    [(rank, channel)] in the pad of rank [t] and then acquires slot
    [(t, channel)] in the rank's own pad; the other threads do nothing.
    In a group of more than 32 ranks the ranks from 32 up are neither
    signalled nor awaited. *)
Theorem barrier_kernel_lanes tbl c rank W pad_own :
  0 <= W <= int_max ->
  int_min <= W * c <= int_max ->
  Z.min W C10_WARP_SIZE <= Z.of_nat (length (dev_contents tbl)) ->
  index (dev_contents tbl) rank = Ok pad_own ->
  run_kernel (BarrierKernel tbl c rank W)
  = Ok (concat (barrier_lane (dev_contents tbl) pad_own c rank W
                <$> seqZ 0 (Z.min W C10_WARP_SIZE))).
Proof.
  intros HW Hm Hlen Hown. unfold run_kernel.
  set (pads := dev_contents tbl) in *.
  set (g := fun t => if t <? W then barrier_lane pads pad_own c rank W t else []).
  rewrite (run_threads_all _ g).
  - f_equal.
    replace C10_WARP_SIZE with (Z.min W C10_WARP_SIZE
                                + (C10_WARP_SIZE - Z.min W C10_WARP_SIZE)) at 1
      by lia.
    rewrite seqZ_app by (unfold C10_WARP_SIZE; lia).
    rewrite fmap_app, concat_app.
    rewrite (concat_all_nil g (seqZ _ (C10_WARP_SIZE - Z.min W C10_WARP_SIZE))).
    + rewrite app_nil_r. f_equal. apply list_fmap_ext.
      intros i t Ht. apply lookup_seqZ in Ht as [-> Hi]. unfold g.
      destruct (0 + Z.of_nat i <? W) eqn:E; [reflexivity|].
      apply Z.ltb_ge in E. lia.
    + apply Forall_seqZ. intros t Ht. unfold g.
      destruct (t <? W) eqn:E; [|reflexivity]. apply Z.ltb_lt in E.
      unfold C10_WARP_SIZE in *. lia.
  - apply Forall_seqZ. intros t Ht. unfold barrier_kernel, g.
    assert (Hw : wrap_uint W = W).
    { unfold wrap_uint. apply Z.mod_small. unfold int_max in HW. lia. }
    rewrite Hw. destruct (t <? W) eqn:E; [|reflexivity].
    apply Z.ltb_lt in E.
    rewrite (index_total pads t) by (unfold C10_WARP_SIZE in *; lia).
    cbn [result_bind]. rewrite (int_mul_exact _ _ Hm). cbn [result_bind].
    rewrite Hown. cbn [result_bind]. unfold barrier_lane, release_signal,
      acquire_signal. rewrite !ptr_add_slot. reflexivity.
Qed.

Lemma barrier_kernel_lanes_witness :
  run_kernel (BarrierKernel (signal_pads_dev_ example_symm) 3 0 2)
  = Ok (concat (barrier_lane [8192; 8392704] 8192 3 0 2 <$> seqZ 0 (Z.min 2 32))).
Proof.
  apply (barrier_kernel_lanes (signal_pads_dev_ example_symm) 3 0 2 8192).
  - vm_compute. split; discriminate.
  - vm_compute. split; discriminate.
  - vm_compute. discriminate.
  - reflexivity.
Defined.

(** ** The destructor *)

Lemma mapped_no_map evs p acc :
  forallb (fun e => negb (is_map_event e)) evs = true ->
  acc = false \/ (exists size, CuMemUnmap p size 0 ∈ evs) ->
  fold_left (mapped_step p) evs acc = false.
Proof.
  revert acc. induction evs as [|e evs IH]; intros acc Hno Hor.
  - destruct Hor as [->|[size Hin]]; [reflexivity|]. inversion Hin.
  - cbn [forallb] in Hno. apply andb_true_iff in Hno as [He Hno].
    cbn [fold_left]. apply IH; [exact Hno|].
    destruct Hor as [->|[size Hin]].
    + left. destruct e; try reflexivity; cbn [mapped_step].
      * discriminate.
      * match goal with |- (if ?b then _ else _) = _ => destruct b end;
          reflexivity.
    + apply elem_of_cons in Hin as [<-|Hin]; [|right; eauto].
      left. cbn [mapped_step]. rewrite Z.eqb_refl. reflexivity.
Qed.

Section DestructorLoop.
Variables (env : DtorEnv) (sm : CUDASymmetricMemory).
Hypothesis unmap_ok : forall r, 0 <= r < world_size_ sm -> dtor_unmap_res env r = 0.
Hypothesis release_ok :
  forall r, 0 <= r < world_size_ sm -> dtor_release_res env r = 0.
Hypothesis buffers_long : world_size_ sm <= Z.of_nat (length (buffers_ sm)).
Hypothesis handles_long : world_size_ sm <= Z.of_nat (length (handles_ sm)).

Lemma dtor_loop rs : forall w,
  Forall (fun r => 0 <= r < world_size_ sm) rs ->
  for_each
    (fun _ r =>
       do buf <- lift (index (buffers_ sm) r);
       call emit (CuMemUnmap buf (block_size_ sm) (dtor_unmap_res env r));
       call driver_check (dtor_unmap_res env r);
       do hdl <- lift (index (handles_ sm) r);
       call emit (CuMemRelease hdl (dtor_release_res env r));
       driver_check (dtor_release_res env r)) rs tt w
  = Ret tt (log_all (concat (dtor_rank_events sm <$> rs)) w).
Proof.
  induction rs as [|r rs IH]; intros w Hrs.
  - simpl. unfold ret. rewrite log_all_nil. reflexivity.
  - inversion Hrs as [|? ? Hr Hrs']; subst.
    cbn [for_each]. unfold bind at 1.
    unfold bind at 1. rewrite (index_total (buffers_ sm) r) by lia.
    cbn [lift]. unfold ret at 1.
    unfold bind at 1. unfold emit at 1, modify at 1.
    unfold bind at 1. unfold driver_check at 1.
    rewrite (unmap_ok r Hr). cbn [Z.eqb]. unfold ret at 1.
    unfold bind at 1. rewrite (index_total (handles_ sm) r) by lia.
    cbn [lift]. unfold ret at 1.
    unfold bind at 1. unfold emit at 1, modify at 1.
    unfold driver_check at 1. rewrite (release_ok r Hr). cbn [Z.eqb].
    unfold ret at 1. rewrite (IH _ Hrs').
    cbn [fmap list_fmap concat]. f_equal.
    unfold log_all, log, dtor_rank_events. cbn. rewrite <- !app_assoc.
    reflexivity.
Qed.
End DestructorLoop.

(** X12. During process teardown the destructor of a
    [CUDASymmetricMemory] makes no call at all.  Otherwise, when every call
    succeeds, it synchronizes the device, then unmaps the buffer and
    releases the handle of every rank, in rank order, and finally frees
    the two device tables; afterwards none of the object's buffers is
    mapped. *)
Theorem destructor_unmaps_every_rank env sm w :
  (dtor_finalizing env = true -> CUDASymmetricMemory_dtor env sm w = Ret tt w)
  /\ (dtor_finalizing env = false -> sync_res env = 0 ->
      (forall r, 0 <= r < world_size_ sm ->
         dtor_unmap_res env r = 0 /\ dtor_release_res env r = 0) ->
      world_size_ sm <= Z.of_nat (length (buffers_ sm)) ->
      world_size_ sm <= Z.of_nat (length (handles_ sm)) ->
      CUDASymmetricMemory_dtor env sm w = Ret tt (log_all (dtor_events sm) w)
      /\ forall r, 0 <= r < world_size_ sm ->
           mapped (trace (log_all (dtor_events sm) w))
             (buffers_ sm !!! Z.to_nat r) = false).
Proof.
  split.
  - intros Hf. unfold CUDASymmetricMemory_dtor. rewrite Hf. reflexivity.
  - intros Hf Hsync Hres Hb Hh. split.
    + unfold CUDASymmetricMemory_dtor. rewrite Hf.
      unfold bind at 1. unfold emit at 1, modify at 1.
      unfold bind at 1. unfold cuda_check. rewrite Hsync. cbn [Z.eqb].
      unfold ret at 1. unfold bind at 1.
      rewrite (dtor_loop env sm (fun r Hr => proj1 (Hres r Hr))
                 (fun r Hr => proj2 (Hres r Hr)) Hb Hh)
        by (apply Forall_seqZ; intros; lia).
      unfold bind, emit, modify, dtor_events. f_equal.
      unfold log_all, log. cbn. rewrite <- !app_assoc. reflexivity.
    + intros r Hr. cbn [trace log_all]. rewrite mapped_app.
      apply mapped_no_map.
      * unfold dtor_events. cbn [forallb is_map_event negb andb].
        rewrite forallb_app. cbn [forallb is_map_event negb andb].
        rewrite andb_true_r. rewrite forallb_forall. intros e He.
        apply in_concat in He as (l & Hl & He).
        apply list_elem_of_In, list_elem_of_fmap in Hl as (r' & -> & _).
        unfold dtor_rank_events in He.
        destruct He as [<-|[<-|[]]]; reflexivity.
      * right. exists (block_size_ sm). apply list_elem_of_In.
        unfold dtor_events. right. apply in_or_app. left.
        apply in_concat. exists (dtor_rank_events sm r). split.
        -- apply list_elem_of_In, list_elem_of_fmap. exists r.
           split; [reflexivity|]. apply elem_of_seqZ. lia.
        -- left. reflexivity.
Qed.

Lemma destructor_unmaps_every_rank_witness :
  CUDASymmetricMemory_dtor ok_dtor example_symm initial_world
  = Ret tt (log_all (dtor_events example_symm) initial_world)
  /\ mapped (trace (log_all (dtor_events example_symm) initial_world))
       (buffers_ example_symm !!! Z.to_nat 1) = false.
Proof.
  destruct (proj2 (destructor_unmaps_every_rank ok_dtor example_symm
                     initial_world)) as [H1 H2].
  - reflexivity.
  - reflexivity.
  - intros r _. split; reflexivity.
  - vm_compute. discriminate.
  - vm_compute. discriminate.
  - split; [exact H1|]. apply H2. vm_compute. split; [discriminate | reflexivity].
Defined.

(** ** A successful [rendezvous] *)

Lemma bind_Ret_inv {A B} (m : M A) (k : A -> M B) w b w' :
  bind m k w = Ret b w' -> exists a w1, m w = Ret a w1 /\ k a w1 = Ret b w'.
Proof.
  unfold bind. destruct (m w) as [a w1| |]; [eauto | discriminate..].
Qed.

Lemma lift_Ret_inv {A} (r : result A) w a w' :
  lift r w = Ret a w' -> r = Ok a /\ w' = w.
Proof.
  destruct r; simpl; unfold ret, throw, undefined; intros H;
    [injection H as -> ->; auto | discriminate..].
Qed.

Lemma driver_check_Ret_inv res w a w' :
  driver_check res w = Ret a w' -> res = 0 /\ w' = w.
Proof.
  unfold driver_check. destruct (res =? 0) eqn:E; intros H.
  - apply Z.eqb_eq in E. injection H as _ ->. auto.
  - discriminate.
Qed.

Section TraceBlindFrame.
Variable I : World -> Prop.
Hypothesis I_blind : trace_blind I.

Lemma map_block_blind env hdl size device :
  preserves I (map_block env hdl size device).
Proof.
  unfold map_block.
  preserves_auto ltac:(idtac; intros ? Hw; apply I_blind; exact Hw).
Qed.

Lemma import_peer_blind env block ptr rank reqs m r :
  preserves I (import_peer env block ptr rank reqs m r).
Proof.
  unfold import_peer, import_remote_fd.
  destruct (r =? rank); [apply preserves_ret|].
  apply preserves_bind; [apply preserves_lift | intros ?].
  apply preserves_bind;
    [preserves_auto ltac:(idtac; intros ? Hw; apply I_blind; exact Hw)
    | intros ?].
  apply preserves_bind;
    [preserves_auto ltac:(idtac; intros ? Hw; apply I_blind; exact Hw)
    | intros ?].
  apply preserves_bind; [apply preserves_driver_check | intros ?].
  apply preserves_bind; [apply map_block_blind | intros ?].
  preserves_auto ltac:(idtac; intros ? Hw; apply I_blind; exact Hw).
Qed.

Lemma ctor_blind env hs bsz bufs pads bufsz dev rank W :
  preserves I (CUDASymmetricMemory_ctor env hs bsz bufs pads bufsz dev rank W).
Proof.
  unfold CUDASymmetricMemory_ctor.
  preserves_auto ltac:(idtac; intros ? Hw; apply I_blind; exact Hw).
Qed.
End TraceBlindFrame.

Lemma import_peer_writes env b p rank reqs m r w m1 w1 :
  import_peer env b p rank reqs m r w = Ret m1 w1 ->
  exists h buf,
    m1 = mkMappings (<[Z.to_nat r := h]> (m_handles m))
           (<[Z.to_nat r := buf]> (m_buffers m))
           (<[Z.to_nat r := ptr_offset buf (signal_pad_offset b)]>
              (m_signal_pads m))
    /\ (r = rank -> buf = p /\ h = handle b).
Proof.
  unfold import_peer. destruct (r =? rank) eqn:E.
  - unfold ret. intros H. injection H as <- _. eauto 6.
  - apply Z.eqb_neq in E. intros H.
    apply bind_Ret_inv in H as (req & w2 & _ & H).
    apply bind_Ret_inv in H as (fd & w3 & _ & H).
    apply bind_Ret_inv in H as (? & w4 & _ & H).
    apply bind_Ret_inv in H as (? & w5 & _ & H).
    apply bind_Ret_inv in H as (buf & w6 & _ & H).
    apply bind_Ret_inv in H as (? & w7 & _ & H).
    unfold ret in H. injection H as <- _.
    exists (import_handle (peers env r)), buf. split; [reflexivity|].
    intros ->. contradiction.
Qed.

Lemma import_loop_ok env b p rank reqs n rs : forall (done : Z -> Prop) m w m' w',
  Forall (fun r => 0 <= r) rs ->
  mappings_ok b p rank n done m ->
  for_each (import_peer env b p rank reqs) rs m w = Ret m' w' ->
  mappings_ok b p rank n (fun r => done r \/ r ∈ rs) m'.
Proof.
  induction rs as [|r rs IH]; intros done m w m' w' Hpos Hok Hloop.
  - simpl in Hloop. unfold ret in Hloop. injection Hloop as <- _.
    destruct Hok as (L1 & L2 & L3 & Hdone).
    split; [|split; [|split]]; try assumption.
    intros x [Hx|Hx] Hrange; [apply Hdone; assumption | inversion Hx].
  - inversion Hpos as [|? ? Hr Hpos']; subst.
    cbn [for_each] in Hloop.
    apply bind_Ret_inv in Hloop as (m1 & w1 & Hstep & Hloop).
    apply import_peer_writes in Hstep as (h & buf & -> & Hown).
    assert (Hok1 : mappings_ok b p rank n (fun x => done x \/ x = r)
                     (mkMappings (<[Z.to_nat r := h]> (m_handles m))
                        (<[Z.to_nat r := buf]> (m_buffers m))
                        (<[Z.to_nat r := ptr_offset buf (signal_pad_offset b)]>
                           (m_signal_pads m)))).
    { destruct Hok as (L1 & L2 & L3 & Hdone).
      unfold mappings_ok. cbn [m_handles m_buffers m_signal_pads].
      rewrite !length_insert.
      split; [|split; [|split]]; try assumption.
      intros x Hx Hrange. destruct (decide (x = r)) as [->|Hne].
      - rewrite !list_lookup_insert_eq by lia. split; [eauto|].
        intros Heq. destruct (Hown Heq) as [-> ->]. auto.
      - destruct Hx as [Hd|?]; [|contradiction].
        rewrite !list_lookup_insert_ne by lia. apply Hdone; assumption. }
    pose proof (IH _ _ _ _ _ Hpos' Hok1 Hloop) as (L1 & L2 & L3 & Hdone).
    split; [|split; [|split]]; try assumption.
    intros x Hx Hrange. apply Hdone; [|exact Hrange].
    destruct Hx as [Hx|Hx]; [left; left; exact Hx|].
    apply elem_of_cons in Hx as [->|Hx]; [left; right; reflexivity
                                         | right; exact Hx].
Qed.

Lemma ctor_Ret_inv env hs bs bufs pads bsz dev rank W w sm w' :
  CUDASymmetricMemory_ctor env hs bs bufs pads bsz dev rank W w = Ret sm w' ->
  W <= Z.of_nat (length bufs) /\ W <= Z.of_nat (length pads)
  /\ sm = mkSymm hs bs bufs pads bsz dev rank W
            (mkDevTable (buffers_dev_ptr env) (take (Z.to_nat W) bufs))
            (mkDevTable (signal_pads_dev_ptr env) (take (Z.to_nat W) pads)).
Proof.
  unfold CUDASymmetricMemory_ctor, bind, emit, modify, cuda_check. cbv zeta.
  destruct ((W <=? Z.of_nat (length bufs)) && (W <=? Z.of_nat (length pads)))
    eqn:E; [|discriminate].
  apply andb_true_iff in E as [E1 E2]. apply Z.leb_le in E1, E2.
  destruct (memcpy_buffers_res env =? 0); [|discriminate].
  destruct (memcpy_signal_pads_res env =? 0); [|discriminate].
  unfold ret. intros H. injection H as <- _. auto.
Qed.

Lemma store_all_gather_Ret_rank {T} sz (tp : T -> Payload) replies rank W val w
    vals w' :
  store_all_gather sz tp replies rank W val w = Ret vals w' -> 0 <= rank < W.
Proof.
  intros H. destruct (decide (0 <= rank < W)) as [Hr|Hr]; [exact Hr|].
  exfalso. unfold store_all_gather in H.
  unfold bind at 1 in H. unfold get_world in H. cbv zeta in H.
  unfold bind at 1 in H. unfold modify at 1 in H.
  unfold bind at 1 in H.
  rewrite index_out_of_range in H; [discriminate|].
  rewrite length_fmap, length_seqZ. lia.
Qed.

(** The steps a successful first [rendezvous] went through. *)
Lemma rendezvous_success_inv env p w b s w' :
  find_block w p = Some b -> symm_mem b = None ->
  rendezvous env p w = Ret s w' ->
  let group_info := get_group_info env (group_name b) in
  let rank := gi_rank group_info in
  let W := gi_world_size group_info in
  exists reqs w1 m w2 w3 sm w4,
    store_all_gather sizeof_RendezvousRequest PayloadRequest
      (gather_replies env) rank W
      (mkRequest (device_idx b) (export_fd env) (getpid env)
         (block_size b) (buffer_size b) (signal_pad_offset b))
      (log (CuMemExportToShareableHandle (handle b) (export_fd env)
              (export_res env)) w)
    = Ret reqs w1
    /\ validate_rendezvous_requests reqs W = Ok tt
    /\ for_each (import_peer env b p rank reqs) (seqZ 0 W)
         (mkMappings (replicate (Z.to_nat W) 0) (replicate (Z.to_nat W) 0)
            (replicate (Z.to_nat W) 0)) w1
       = Ret m w2
    /\ store_barrier (barrier_replies env) rank W w2 = Ret tt w3
    /\ CUDASymmetricMemory_ctor (ctor_env env) (m_handles m) (block_size b)
         (m_buffers m) (m_signal_pads m) (buffer_size b) (device_idx b) rank W
         (log (Close (export_fd env)) w3)
       = Ret sm w4
    /\ s = next_obj w4
    /\ w' = set_ptr_to_block
              (alter (fun b => set_symm_mem b (Some (next_obj w4))) p)
              (set_symm_objs (<[next_obj w4 := (sm, 2%nat)]>)
                 (set_next_obj (S (next_obj w4)) w4)).
Proof.
  intros Hb Hs Hr gi rank W.
  assert (Hres : export_res env = 0).
  { destruct (export_res env =? 0) eqn:E; [apply Z.eqb_eq in E; exact E|].
    exfalso. unfold rendezvous in Hr. unfold bind at 1 in Hr.
    unfold get_world in Hr. rewrite Hb, Hs in Hr. cbv zeta in Hr.
    unfold bind at 1 in Hr. unfold emit at 1, modify at 1 in Hr.
    unfold bind at 1 in Hr. unfold driver_check in Hr. rewrite E in Hr.
    discriminate. }
  rewrite (rendezvous_exchange env p w b Hb Hs Hres) in Hr. cbv zeta in Hr.
  fold gi in Hr. fold rank W in Hr.
  apply bind_Ret_inv in Hr as (reqs & w1 & Hg & Hr).
  apply bind_Ret_inv in Hr as ([] & w1' & Hv & Hr).
  apply lift_Ret_inv in Hv as [Hv ->].
  apply bind_Ret_inv in Hr as (m & w2 & Hloop & Hr).
  apply bind_Ret_inv in Hr as ([] & w3 & Hbar & Hr).
  apply bind_Ret_inv in Hr as ([] & w3' & Hclose & Hr).
  unfold emit, modify in Hclose. injection Hclose as <-.
  apply bind_Ret_inv in Hr as (sm & w4 & Hctor & Hr).
  unfold bind, get_world, modify, ret in Hr. injection Hr as <- <-.
  exists reqs, w1, m, w2, w3, sm, w4. repeat split; assumption.
Qed.

Lemma replicate_mappings_ok b p rank n :
  mappings_ok b p rank n (fun _ => False)
    (mkMappings (replicate n 0) (replicate n 0) (replicate n 0)).
Proof.
  unfold mappings_ok. cbn [m_handles m_buffers m_signal_pads].
  rewrite !length_replicate. repeat split. all: contradiction.
Qed.

(** X13. The object a first successful [rendezvous] builds and stores on
    the Block.  It is registered with two references (the Block's and the
    caller's); its rank and world size are those of the group, with
    [0 <= rank < world_size]; its sizes and device are those of the Block;
    its three vectors have one entry per rank; the entry of the local rank
    is the local pointer and the local handle; the signal pad of every rank
    lies [signal_pad_offset] bytes into the buffer of that rank; and the two
    device tables hold the same pointers as the host vectors. *)
Theorem rendezvous_builds_symmetric_memory env p w b s w' :
  find_block w p = Some b -> symm_mem b = None ->
  rendezvous env p w = Ret s w' ->
  let rank := gi_rank (get_group_info env (group_name b)) in
  let W := gi_world_size (get_group_info env (group_name b)) in
  exists sm,
    symm_objs w' !! s = Some (sm, 2%nat)
    /\ find_block w' p = Some (set_symm_mem b (Some s))
    /\ 0 <= rank < W
    /\ rank_ sm = rank /\ world_size_ sm = W
    /\ buffer_size_ sm = buffer_size b /\ block_size_ sm = block_size b
    /\ local_device_idx_ sm = device_idx b
    /\ length (handles_ sm) = Z.to_nat W
    /\ length (buffers_ sm) = Z.to_nat W
    /\ length (signal_pads_ sm) = Z.to_nat W
    /\ buffers_ sm !! Z.to_nat rank = Some p
    /\ handles_ sm !! Z.to_nat rank = Some (handle b)
    /\ (forall r buf,
          buffers_ sm !! r = Some buf ->
          signal_pads_ sm !! r = Some (ptr_offset buf (signal_pad_offset b)))
    /\ dev_contents (buffers_dev_ sm) = buffers_ sm
    /\ dev_contents (signal_pads_dev_ sm) = signal_pads_ sm.
Proof.
  intros Hb Hs Hr rank W.
  destruct (rendezvous_success_inv env p w b s w' Hb Hs Hr)
    as (reqs & w1 & m & w2 & w3 & sm & w4 & Hg & Hv & Hloop & Hbar & Hctor
        & -> & ->).
  fold rank W in Hg, Hv, Hloop, Hbar, Hctor.
  pose proof (store_all_gather_Ret_rank _ _ _ _ _ _ _ _ _ Hg) as Hrank.
  pose proof (import_loop_ok env b p rank reqs (Z.to_nat W) (seqZ 0 W)
                (fun _ => False) _ _ _ _
                ltac:(apply Forall_seqZ; intros; lia)
                (replicate_mappings_ok b p rank (Z.to_nat W)) Hloop)
    as (L1 & L2 & L3 & Hdone).
  apply ctor_Ret_inv in Hctor as (_ & _ & ->).
  assert (Hin : forall r, 0 <= r < W -> False \/ r ∈ seqZ 0 W).
  { intros r Hr'. right. apply elem_of_seqZ. lia. }
  exists (mkSymm (m_handles m) (block_size b) (m_buffers m) (m_signal_pads m)
            (buffer_size b) (device_idx b) rank W
            (mkDevTable (buffers_dev_ptr (ctor_env env))
               (take (Z.to_nat W) (m_buffers m)))
            (mkDevTable (signal_pads_dev_ptr (ctor_env env))
               (take (Z.to_nat W) (m_signal_pads m)))).
  cbn [rank_ world_size_ buffer_size_ block_size_ local_device_idx_ handles_
       buffers_ signal_pads_ buffers_dev_ signal_pads_dev_ dev_contents].
  split; [cbn [symm_objs set_ptr_to_block set_symm_objs];
          apply lookup_insert_eq|].
  split.
  { pose proof (rendezvous_registry env p (ptr_to_block_ w) w eq_refl) as H.
    rewrite Hr in H. destruct H as (b0 & Hb0 & [[Hs0 _]|[_ Hreg]]).
    - unfold find_block in Hb. congruence.
    - unfold find_block in *. rewrite Hreg, lookup_alter_eq, Hb. reflexivity. }
  split; [exact Hrank|].
  do 5 (split; [reflexivity|]).
  do 3 (split; [assumption|]).
  assert (Hrank' : 0 <= rank < Z.of_nat (Z.to_nat W)) by lia.
  destruct (Hdone rank (Hin rank Hrank) Hrank') as [_ Hown].
  destruct (Hown eq_refl) as [Hown1 Hown2].
  split; [exact Hown1|]. split; [exact Hown2|].
  split.
  { intros r buf Hbuf.
    assert (Hlt : (r < Z.to_nat W)%nat)
      by (rewrite <- L2; eapply lookup_lt_Some; exact Hbuf).
    assert (Hr1 : 0 <= Z.of_nat r < W) by lia.
    assert (Hr2 : 0 <= Z.of_nat r < Z.of_nat (Z.to_nat W)) by lia.
    destruct (Hdone (Z.of_nat r) (Hin _ Hr1) Hr2) as [(buf' & Hb1 & Hb2) _].
    rewrite Nat2Z.id in Hb1, Hb2. congruence. }
  split; apply firstn_all2; lia.
Qed.

Lemma rendezvous_builds_symmetric_memory_witness :
  exists sm,
    symm_objs
      (world_after [OpAlloc (ok_alloc 4096 7) 4096 0 "g";
                    OpRendezvous
                      (pair_rendezvous (mkRequest 1 5 2000 2097152 4096 4096))
                      4096]) !! 0%nat = Some (sm, 2%nat)
    /\ rank_ sm = 0 /\ world_size_ sm = 2
    /\ buffers_ sm !! Z.to_nat 0 = Some 4096
    /\ dev_contents (signal_pads_dev_ sm) = signal_pads_ sm.
Proof.
  destruct (rendezvous_builds_symmetric_memory
              (pair_rendezvous (mkRequest 1 5 2000 2097152 4096 4096)) 4096
              (world_after [OpAlloc (ok_alloc 4096 7) 4096 0 "g"])
              (mkBlock 7 0 2097152 4096 4096 "g" None) 0%nat
              (world_after [OpAlloc (ok_alloc 4096 7) 4096 0 "g";
                            OpRendezvous
                              (pair_rendezvous
                                 (mkRequest 1 5 2000 2097152 4096 4096)) 4096]))
    as (sm & H1 & _ & _ & H2 & H3 & _ & _ & _ & _ & _ & _ & H4 & _ & _ & _ & H5).
  - vm_compute. reflexivity.
  - reflexivity.
  - vm_compute. reflexivity.
  - exists sm. repeat split; assumption.
Defined.

(** X14. A first successful [rendezvous] consumes exactly two sequence
    numbers of the store protocol, one for the all-gather of the requests
    and one for the closing barrier: on return the counter is two steps
    past its value at the call. *)
Theorem rendezvous_consumes_two_sequence_numbers env p w b s w' :
  find_block w p = Some b -> symm_mem b = None ->
  rendezvous env p w = Ret s w' ->
  store_comm_seq_id w'
  = wrap_size_t (wrap_size_t (store_comm_seq_id w + 1) + 1).
Proof.
  intros Hb Hs Hr.
  destruct (rendezvous_success_inv env p w b s w' Hb Hs Hr)
    as (reqs & w1 & m & w2 & w3 & sm & w4 & Hg & Hv & Hloop & Hbar & Hctor
        & -> & ->).
  cbn [store_comm_seq_id set_ptr_to_block set_symm_objs set_next_obj].
  pose proof (store_all_gather_outcome sizeof_RendezvousRequest PayloadRequest
                (gather_replies env)
                (gi_rank (get_group_info env (group_name b)))
                (gi_world_size (get_group_info env (group_name b)))
                (mkRequest (device_idx b) (export_fd env) (getpid env)
                   (block_size b) (buffer_size b) (signal_pad_offset b))
                (log (CuMemExportToShareableHandle (handle b) (export_fd env)
                        (export_res env)) w)) as H1.
  rewrite Hg in H1. destruct H1 as [H1 _]. cbn [store_comm_seq_id log] in H1.
  assert (Hblind : forall c, trace_blind (fun w0 => store_comm_seq_id w0 = c))
    by (intros c e w0 Hw0; exact Hw0).
  pose proof (preserves_returned
                (fun w0 => store_comm_seq_id w0 = store_comm_seq_id w1) _ w1 _ _
                (preserves_for_each _ _ _
                   (fun acc x =>
                      import_peer_blind _ (Hblind (store_comm_seq_id w1))
                        env b p _ reqs acc x)
                   _) eq_refl Hloop) as H2.
  pose proof (store_barrier_outcome
                (barrier_replies env)
                (gi_rank (get_group_info env (group_name b)))
                (gi_world_size (get_group_info env (group_name b))) w2) as H3.
  rewrite Hbar in H3. destruct H3 as [H3 _].
  pose proof (preserves_returned
                (fun w0 => store_comm_seq_id w0 = store_comm_seq_id w3) _
                (log (Close (export_fd env)) w3) _ _
                (ctor_blind _ (Hblind (store_comm_seq_id w3)) _ _ _ _ _ _ _ _ _)
                eq_refl Hctor) as H4.
  cbn [store_comm_seq_id log] in H4. rewrite H4, H3, H2, H1. reflexivity.
Qed.

Lemma rendezvous_consumes_two_sequence_numbers_witness :
  store_comm_seq_id
    (world_after [OpAlloc (ok_alloc 4096 7) 4096 0 "g";
                  OpRendezvous solo_rendezvous 4096])
  = wrap_size_t (wrap_size_t (0 + 1) + 1).
Proof.
  apply (rendezvous_consumes_two_sequence_numbers solo_rendezvous 4096
           (world_after [OpAlloc (ok_alloc 4096 7) 4096 0 "g"])
           (mkBlock 7 0 2097152 4096 4096 "g" None) 0%nat).
  - vm_compute. reflexivity.
  - reflexivity.
  - vm_compute. reflexivity.
Defined.

(** ** Signals pair up across ranks *)

Lemma barrier_kernel_lane pads c rank W t pad_t pad_own :
  0 <= W <= int_max -> int_min <= W * c <= int_max -> t < W ->
  index pads t = Ok pad_t -> index pads rank = Ok pad_own ->
  barrier_kernel pads c rank W t
  = Ok [ReleaseSignal (pad_t + slot_byte_offset W rank c);
        AcquireSignal (pad_own + slot_byte_offset W t c)].
Proof.
  intros HW Hm Ht Hpt Hown. unfold barrier_kernel.
  assert (Hw : wrap_uint W = W).
  { unfold wrap_uint. apply Z.mod_small. unfold int_max in HW. lia. }
  rewrite Hw. destruct (t <? W) eqn:E; [|apply Z.ltb_ge in E; lia].
  rewrite Hpt. cbn [result_bind]. rewrite (int_mul_exact _ _ Hm).
  cbn [result_bind]. rewrite Hown. cbn [result_bind].
  unfold release_signal, acquire_signal. rewrite !ptr_add_slot. reflexivity.
Qed.

(** X15. Two ranks [r] and [d] of a group, each with its own table of
    mapped pads.  A signal posted by [put_signal(d, c)] on rank [r] lands
    on the slot that [wait_signal(r, c)] on rank [d] waits on: both kernels
    address the byte offset of slot [(r, c)] from the base of the pad of
    [d], each through its own mapping of that pad.  In the barrier, lane
    [d] of rank [r] releases that same slot, which lane [r] of rank [d]
    acquires, and the other way round. *)
Theorem put_and_wait_meet_on_one_slot tbl_r tbl_d r d c W r_pad_d r_pad_r d_pad_d
    d_pad_r :
  0 <= W <= int_max -> int_min <= W * c <= int_max ->
  r < W -> d < W ->
  index (dev_contents tbl_r) d = Ok r_pad_d ->
  index (dev_contents tbl_r) r = Ok r_pad_r ->
  index (dev_contents tbl_d) d = Ok d_pad_d ->
  index (dev_contents tbl_d) r = Ok d_pad_r ->
  run_kernel (PutSignalKernel tbl_r d c r W)
  = Ok [ReleaseSignal (r_pad_d + slot_byte_offset W r c)]
  /\ run_kernel (WaitSignalKernel tbl_d r c d W)
     = Ok (AcquireSignal (d_pad_d + slot_byte_offset W r c)
           :: replicate 32 ThreadfenceSystem)
  /\ barrier_kernel (dev_contents tbl_r) c r W d
     = Ok [ReleaseSignal (r_pad_d + slot_byte_offset W r c);
           AcquireSignal (r_pad_r + slot_byte_offset W d c)]
  /\ barrier_kernel (dev_contents tbl_d) c d W r
     = Ok [ReleaseSignal (d_pad_r + slot_byte_offset W d c);
           AcquireSignal (d_pad_d + slot_byte_offset W r c)].
Proof.
  intros HW Hm Hr Hd H1 H2 H3 H4. split; [|split; [|split]].
  - rewrite run_put_signal_kernel, H1, (int_mul_exact _ _ Hm).
    cbn [result_bind]. rewrite ptr_add_slot. reflexivity.
  - rewrite run_wait_signal_kernel, H3, (int_mul_exact _ _ Hm).
    cbn [result_bind]. rewrite ptr_add_slot. reflexivity.
  - apply barrier_kernel_lane; assumption.
  - apply barrier_kernel_lane; assumption.
Qed.

Lemma put_and_wait_meet_on_one_slot_witness :
  run_kernel (PutSignalKernel (mkDevTable 1024 [8192; 8392704]) 1 3 0 2)
  = Ok [ReleaseSignal (8392704 + slot_byte_offset 2 0 3)]
  /\ run_kernel (WaitSignalKernel (mkDevTable 2048 [20480; 12288]) 0 3 1 2)
     = Ok (AcquireSignal (12288 + slot_byte_offset 2 0 3)
           :: replicate 32 ThreadfenceSystem).
Proof.
  destruct (put_and_wait_meet_on_one_slot (mkDevTable 1024 [8192; 8392704])
              (mkDevTable 2048 [20480; 12288]) 0 1 3 2 8392704 8192 12288 20480)
    as (H1 & H2 & _); try reflexivity; try lia.
  - vm_compute. split; discriminate.
  - vm_compute. split; discriminate.
  - split; [exact H1 | exact H2].
Defined.

(** ** [alloc] then [free] *)

(** X16. Freeing a pointer right after allocating it undoes the
    allocation: when the driver calls succeed and the address was not a
    registry key before, the registry is back to what it was, the address
    is no longer mapped, and the trace has grown by the six calls of
    [alloc] followed by the unmap and the release of the new handle. *)
Theorem alloc_then_free_restores_registry aenv fenv size device group w :
  granularity_res aenv = 0 -> granularity aenv <> 0 -> create_res aenv = 0 ->
  reserve_res (alloc_map aenv) = 0 -> map_res (alloc_map aenv) = 0 ->
  set_access_res (alloc_map aenv) = 0 -> memset_res aenv = 0 ->
  is_finalizing fenv = false -> free_unmap_res fenv = 0 ->
  free_release_res fenv = 0 ->
  ptr_to_block_ w !! reserve_ptr (alloc_map aenv) = None ->
  exists p w1 w2,
    alloc aenv size device group w = Ret p w1
    /\ free fenv p w1 = Ret tt w2
    /\ ptr_to_block_ w2 = ptr_to_block_ w
    /\ mapped (trace w2) p = false
    /\ trace w2
       = trace w1 ++ [CuMemUnmap p (block_size (new_block aenv size device group)) 0;
                      CuMemRelease (create_handle aenv) 0].
Proof.
  intros H1 H2 H3 H4 H5 H6 H7 Hf Hu Hr Hfresh.
  set (p := reserve_ptr (alloc_map aenv)) in *.
  set (b := new_block aenv size device group).
  assert (Ha : exists w1, alloc aenv size device group w = Ret p w1
                          /\ ptr_to_block_ w1 = <[p := b]> (ptr_to_block_ w)).
  { eexists. split.
    - unfold alloc, map_block, bind, emit, modify, driver_check, cuda_check.
      cbv zeta. rewrite H1, H3, H4, H5, H6, H7. cbn [Z.eqb].
      destruct (granularity aenv =? 0) eqn:E;
        [apply Z.eqb_eq in E; contradiction|].
      unfold ret. reflexivity.
    - cbn [ptr_to_block_ set_ptr_to_block log]. unfold emplace.
      fold p. rewrite Hfresh. reflexivity. }
  destruct Ha as (w1 & Ha & Hreg).
  assert (Hb : find_block w1 p = Some b).
  { unfold find_block. rewrite Hreg. apply lookup_insert_eq. }
  exists p, w1.
  exists (set_ptr_to_block (delete p)
            (log (CuMemRelease (handle b) 0)
               (log (CuMemUnmap p (block_size b) 0) w1))).
  split; [exact Ha|]. split.
  { unfold free, bind, get_world. rewrite Hb, Hf.
    change (symm_mem b) with (@None nat). cbv iota.
    unfold emit, modify, driver_check. rewrite Hu, Hr. reflexivity. }
  split.
  { cbn [ptr_to_block_ set_ptr_to_block log]. rewrite Hreg.
    rewrite delete_insert_eq. apply delete_id. exact Hfresh. }
  split.
  { cbn [trace set_ptr_to_block log]. rewrite <- app_assoc, mapped_app.
    cbn [app fold_left mapped_step]. rewrite Z.eqb_refl. reflexivity. }
  cbn [trace set_ptr_to_block log]. rewrite <- app_assoc. reflexivity.
Qed.

Lemma alloc_then_free_restores_registry_witness :
  exists p w1 w2,
    alloc (ok_alloc 4096 7) 100 0 "g" initial_world = Ret p w1
    /\ free ok_free p w1 = Ret tt w2
    /\ ptr_to_block_ w2 = ptr_to_block_ initial_world
    /\ mapped (trace w2) p = false.
Proof.
  destruct (alloc_then_free_restores_registry (ok_alloc 4096 7) ok_free 100 0 "g"
              initial_world)
    as (p & w1 & w2 & Ha & Hfr & Hreg & Hm & _); try reflexivity.
  - vm_compute. discriminate.
  - exists p, w1, w2. repeat split; assumption.
Defined.
